(** * Waypoint coordinate system and lane-change safety (helpers.h)

    A shallow embedding of [src/helpers.h] over IEEE-754 binary64 numbers.

    - A C++ [double] is a primitive [float]; [+ - * /], [sqrt], [fabs] and the
      comparisons are the kernel's binary64 operations, so infinities, signed
      zeros and NaN behave as on the machine.
    - [acos], [atan2], [cos] and [sin] come from the C math library, which is
      not part of the repository: the development is parametric in them
      (class [Libm]).
    - A [vector<double>] is a [list float]; [v[i]] is unchecked in C++, so a
      read outside [0 <= i < v.size()] is a [Fault], never a value.
    - [int] counters and indices are integers of [Z]; every vector here is
      far shorter than [2^31] elements, so no counter wraps.
    - [abs] applied to a double is the overload for doubles that [<math.h>]
      declares in C++ (the same function as [fabs]).
    - Console output ([std::cout]) is not modelled. *)

From Stdlib Require Import ZArith List Lia Bool.
From Stdlib Require Import Floats.
From Stdlib Require Uint63.
From Stdlib Require Ascii String.
From Stdlib Require Import Permutation.
Import ListNotations.

(** ** Outcomes of a computation that indexes vectors *)

Inductive fault : Set :=
| OutOfRange (index size : Z)   (* v[index] with index outside 0 .. size-1 *)
| ModuloByZero                  (* i % 0 *)
| OutOfFuel.                    (* a while loop that did not stop *)

Inductive outcome (A : Type) : Type :=
| Val (a : A)
| Fault (f : fault).

Arguments Val {A} a.
Arguments Fault {A} f.

Definition bind {A B : Type} (m : outcome A) (k : A -> outcome B) : outcome B :=
  match m with
  | Val a => k a
  | Fault f => Fault f
  end.

Notation "x <- m ;; k" := (bind m (fun x => k))
  (at level 61, m at next level, right associativity).

Definition is_val {A : Type} (m : outcome A) : bool :=
  match m with Val _ => true | Fault _ => false end.

(** ** Vectors of doubles *)

Definition vec := list float.

Definition size (v : vec) : Z := Z.of_nat (length v).

(** [v[i]], unchecked in the source. *)
Definition vec_at (v : vec) (i : Z) : outcome float :=
  match (if (i <? 0)%Z then None else nth_error v (Z.to_nat i)) with
  | Some a => Val a
  | None => Fault (OutOfRange i (size v))
  end.

Notation "v .[ i ]" := (vec_at v i)
  (at level 1, left associativity, format "v .[ i ]").

(** [double(n)] for a container size [n]. *)
Definition double_of_size (n : Z) : float := PrimFloat.of_uint63 (Uint63.of_Z n).

(** ** The C math library *)

Class Libm : Set := {
  acos : float -> float;
  atan2 : float -> float -> float;
  cos : float -> float;
  sin : float -> float
}.

(** [std::min(a, b)] is [(b < a) ? b : a]. *)
Definition std_min (a b : float) : float := if (b <? a)%float then b else a.

(** ** Sensor-fusion rows

    One row of the lane's sensor-fusion array; the source reads the entries
    1 to 4 of each row as doubles. *)
Record Car : Set := mkCar {
  car_id : float;   (* [i][0] *)
  car_x : float;    (* [i][1] *)
  car_y : float;    (* [i][2] *)
  car_vx : float;   (* [i][3] *)
  car_vy : float    (* [i][4] *)
}.

Section Helpers.

Context {libm : Libm}.

Local Open Scope float_scope.

(** [M_PI], the double nearest to pi (3.14159265358979323846). *)
Definition pi : float := 0x1.921fb54442d18p+1.

Definition deg2rad (x : float) : float := x * pi / 180.
Definition rad2deg (x : float) : float := x * 180 / pi.

Definition distance (x1 y1 x2 y2 : float) : float :=
  PrimFloat.sqrt ((x2 - x1) * (x2 - x1) + (y2 - y1) * (y2 - y1)).

(** *** ClosestWaypoint *)

(** The [for] loop of [ClosestWaypoint]: [todo] iterations remain, the next
    one is for index [i]. *)
Fixpoint ClosestWaypoint_loop (todo : nat) (i : Z) (x y : float)
    (maps_x maps_y : vec) (closestLen : float) (closestWaypoint : Z)
    : outcome Z :=
  match todo with
  | O => Val closestWaypoint
  | S todo' =>
      map_x <- maps_x.[i] ;;
      map_y <- maps_y.[i] ;;
      let dist := distance x y map_x map_y in
      if dist <? closestLen
      then ClosestWaypoint_loop todo' (i + 1) x y maps_x maps_y dist i
      else ClosestWaypoint_loop todo' (i + 1) x y maps_x maps_y
             closestLen closestWaypoint
  end.

Definition ClosestWaypoint (x y : float) (maps_x maps_y : vec) : outcome Z :=
  ClosestWaypoint_loop (length maps_x) 0 x y maps_x maps_y 100000 0.

(** *** NextWaypoint *)

Definition NextWaypoint (x y theta : float) (maps_x maps_y : vec) : outcome Z :=
  closestWaypoint <- ClosestWaypoint x y maps_x maps_y ;;
  map_x <- maps_x.[closestWaypoint] ;;
  map_y <- maps_y.[closestWaypoint] ;;
  let heading := atan2 (map_y - y) (map_x - x) in
  let angle := abs (theta - heading) in
  let angle := std_min (2 * pi - angle) angle in
  if pi / 2 <? angle
  then
    let closestWaypoint := (closestWaypoint + 1)%Z in
    if (closestWaypoint =? size maps_x)%Z then Val 0%Z else Val closestWaypoint
  else Val closestWaypoint.

(** *** getFrenet *)

(** The arc-length loop of [getFrenet]: adds the lengths of the segments
    [i -> i+1] for the [todo] indices from [i] on. *)
Fixpoint getFrenet_sum (todo : nat) (i : Z) (maps_x maps_y : vec)
    (frenet_s : float) : outcome float :=
  match todo with
  | O => Val frenet_s
  | S todo' =>
      x1 <- maps_x.[i] ;;
      y1 <- maps_y.[i] ;;
      x2 <- maps_x.[(i + 1)%Z] ;;
      y2 <- maps_y.[(i + 1)%Z] ;;
      getFrenet_sum todo' (i + 1) maps_x maps_y (frenet_s + distance x1 y1 x2 y2)
  end.

Definition getFrenet (x y theta : float) (maps_x maps_y : vec)
    : outcome (float * float) :=
  next_wp <- NextWaypoint x y theta maps_x maps_y ;;
  let prev_wp := if (next_wp =? 0)%Z then (size maps_x - 1)%Z else (next_wp - 1)%Z in
  next_x <- maps_x.[next_wp] ;;
  prev_x <- maps_x.[prev_wp] ;;
  next_y <- maps_y.[next_wp] ;;
  prev_y <- maps_y.[prev_wp] ;;
  let n_x := next_x - prev_x in
  let n_y := next_y - prev_y in
  let x_x := x - prev_x in
  let x_y := y - prev_y in
  (* find the projection of x onto n *)
  let proj_norm := (x_x * n_x + x_y * n_y) / (n_x * n_x + n_y * n_y) in
  let proj_x := proj_norm * n_x in
  let proj_y := proj_norm * n_y in
  let frenet_d := distance x_x x_y proj_x proj_y in
  (* sign of d, by comparison with a centre point *)
  let center_x := 1000 - prev_x in
  let center_y := 2000 - prev_y in
  let centerToPos := distance center_x center_y x_x x_y in
  let centerToRef := distance center_x center_y proj_x proj_y in
  let frenet_d := if centerToPos <=? centerToRef then frenet_d * (-1) else frenet_d in
  (* s value *)
  frenet_s <- getFrenet_sum (Z.to_nat prev_wp) 0 maps_x maps_y 0 ;;
  let frenet_s := frenet_s + distance 0 0 proj_x proj_y in
  Val (frenet_s, frenet_d).

(** *** getXY *)

(** The [while] loop of [getXY].  Each test reads [maps_s[prev_wp+1]] before
    it compares [prev_wp] with the size. *)
Fixpoint getXY_scan (fuel : nat) (s : float) (maps_s : vec) (prev_wp : Z)
    : outcome Z :=
  match fuel with
  | O => Fault OutOfFuel
  | S fuel' =>
      s_next <- maps_s.[(prev_wp + 1)%Z] ;;
      if (s_next <? s) && (prev_wp <? size maps_s - 1)%Z
      then getXY_scan fuel' s maps_s (prev_wp + 1)
      else Val prev_wp
  end.

(** The segment start selected by [getXY]: the value of [prev_wp] after the
    loop, started at [-1]. *)
Definition getXY_prev_wp (s : float) (maps_s : vec) : outcome Z :=
  getXY_scan (S (length maps_s)) s maps_s (-1).

Definition getXY (s d : float) (maps_s maps_x maps_y : vec)
    : outcome (float * float) :=
  prev_wp <- getXY_prev_wp s maps_s ;;
  wp2 <- (if (size maps_x =? 0)%Z then Fault ModuloByZero
          else Val ((prev_wp + 1) mod size maps_x)%Z) ;;
  y2 <- maps_y.[wp2] ;;
  y1 <- maps_y.[prev_wp] ;;
  x2 <- maps_x.[wp2] ;;
  x1 <- maps_x.[prev_wp] ;;
  let heading := atan2 (y2 - y1) (x2 - x1) in
  (* the x,y,s along the segment *)
  s1 <- maps_s.[prev_wp] ;;
  let seg_s := s - s1 in
  let seg_x := x1 + seg_s * cos heading in
  let seg_y := y1 + seg_s * sin heading in
  let perp_heading := heading - pi / 2 in
  let x := seg_x + d * cos perp_heading in
  let y := seg_y + d * sin perp_heading in
  Val (x, y).

(** *** Lane information *)

Definition getAbsSpeed (vx vy : float) : float :=
  PrimFloat.sqrt (vx * vx + vy * vy).

(** The summing loop of [getLaneInfo], over the rows in order. *)
Fixpoint getLaneInfo_sum (cars : list Car) (sum : float) : float :=
  match cars with
  | [] => sum
  | c :: cars' => getLaneInfo_sum cars' (sum + getAbsSpeed (car_vx c) (car_vy c))
  end.

Definition getLaneInfo (lane_sensor_fusion : list Car) : vec :=
  let num_cars := double_of_size (Z.of_nat (length lane_sensor_fusion)) in
  if 0 <? num_cars
  then
    let sum := getLaneInfo_sum lane_sensor_fusion 0 in
    [sum / num_cars; num_cars]
  else [25; 0].

Definition cmpLaneConditions (left_lane right_lane : vec) : outcome bool :=
  l0 <- left_lane.[0%Z] ;;
  r0 <- right_lane.[0%Z] ;;
  r1 <- right_lane.[1%Z] ;;
  l1 <- left_lane.[1%Z] ;;
  let left_score := l0 - r0 + r1 - l1 in
  if 0 <=? left_score then Val true else Val false.

(** *** Lane-change safety *)

Definition getTheta (vx vy speed : float) : float :=
  if 0 <=? vy then acos (vx / speed) else (-1) * acos (vx / speed).

Definition t_horizon : float := 3.
Definition car_length : float := 4.

(** [22.3] is the double [0x1.64ccccccccccdp+4]. *)
Definition safety_distance (car_speed : float) : float :=
  car_length + 5 + abs (0x1.64ccccccccccdp+4 - car_speed) * 1.

(** The loop of [safeToChangeLane] over the rows in order;
    [safe_to_change_lane] is the flag so far. *)
Fixpoint safeToChangeLane_loop (cars : list Car) (car_s car_speed : float)
    (maps_x maps_y : vec) (safe_to_change_lane : bool) : outcome bool :=
  match cars with
  | [] => Val safe_to_change_lane
  | c :: cars' =>
      let x := car_x c in
      let y := car_y c in
      let vx := car_vx c in
      let vy := car_vy c in
      let v := getAbsSpeed vx vy in
      let theta := getTheta vx vy v in
      frenet <- getFrenet x y theta maps_x maps_y ;;
      let distance := fst frenet - car_s in
      let relative_speed := car_speed - v in
      if abs distance <=? safety_distance car_speed
      then Val false
      else
        let time_to_collision :=
          if 0 <=? distance
          then (distance - car_length) / relative_speed
          else (distance + car_length) / relative_speed in
        if (0 <=? time_to_collision) && (time_to_collision <=? t_horizon)
        then safeToChangeLane_loop cars' car_s car_speed maps_x maps_y false
        else safeToChangeLane_loop cars' car_s car_speed maps_x maps_y
               safe_to_change_lane
  end.

Definition safeToChangeLane (lane_sensor_fusion : list Car)
    (car_s car_speed : float) (maps_x maps_y : vec) (delta_t : float)
    : outcome bool :=
  safeToChangeLane_loop lane_sensor_fusion car_s car_speed maps_x maps_y true.

End Helpers.

(** ** An executable math library

    [Libm] is a parameter of every statement below.  To run the code on
    concrete inputs an instance is needed: [approx_libm] computes the four
    functions by argument reduction and Taylor sums.  It is not the platform's
    library, and no accuracy is claimed for it beyond what the examples
    evaluate. *)
Module Approx.

Local Open Scope float_scope.

Definition pi : float := 0x1.921fb54442d18p+1.

(** Nearest integer, for magnitudes below [2^51]. *)
Definition rint (x : float) : float := (x + 0x1.8p52) - 0x1.8p52.

(** [acc + term - term*x2/((j+1)(j+2)) + ...], [n] more terms. *)
Fixpoint alt_series (n : nat) (j term acc x2 : float) : float :=
  match n with
  | O => acc
  | S n' =>
      let term' := - (term * x2 / ((j + 1) * (j + 2))) in
      alt_series n' (j + 2) term' (acc + term') x2
  end.

Definition sin_poly (r : float) : float := alt_series 12 1 r r (r * r).
Definition cos_poly (r : float) : float := alt_series 12 0 1 1 (r * r).

(** [x = k * pi/2 + r] with [k] an integer and [|r| <= pi/4]; the result is
    [(k mod 4, r)]. *)
Definition quadrant (x : float) : float * float :=
  let k := rint (x / (pi / 2)) in
  (k - 4 * rint ((k - 1.5) / 4), x - k * (pi / 2)).

Definition sin (x : float) : float :=
  let (q, r) := quadrant x in
  if q =? 0 then sin_poly r
  else if q =? 1 then cos_poly r
  else if q =? 2 then - sin_poly r
  else - cos_poly r.

Definition cos (x : float) : float :=
  let (q, r) := quadrant x in
  if q =? 0 then cos_poly r
  else if q =? 1 then - sin_poly r
  else if q =? 2 then - cos_poly r
  else if q =? 3 then sin_poly r
  else nan.

(** [y - y^3/3 + y^5/5 - ...], [n] more terms; [pow] is the last odd power. *)
Fixpoint atan_series (n : nat) (j pow acc y2 : float) : float :=
  match n with
  | O => acc
  | S n' =>
      let pow' := - (pow * y2) in
      atan_series n' (j + 2) pow' (acc + pow' / (j + 2)) y2
  end.

Definition halve (x : float) : float := x / (1 + PrimFloat.sqrt (1 + x * x)).

(** Arc tangent of [0 <= x <= 1]. *)
Definition atan_unit (x : float) : float :=
  let y := halve (halve (halve x)) in
  8 * atan_series 12 1 y y (y * y).

Definition atan (x : float) : float :=
  let a := abs x in
  let r := if a <=? 1 then atan_unit a else pi / 2 - atan_unit (1 / a) in
  if x <? 0 then - r else r.

Definition atan2 (y x : float) : float :=
  if is_nan x || is_nan y then nan
  else if 0 <? x then atan (y / x)
  else if x <? 0 then (if y <? 0 then atan (y / x) - pi else atan (y / x) + pi)
  else if 0 <? y then pi / 2
  else if y <? 0 then - (pi / 2)
  else 0.

Definition acos (x : float) : float :=
  atan2 (PrimFloat.sqrt ((1 - x) * (1 + x))) x.

End Approx.

#[global] Instance approx_libm : Libm :=
  {| acos := Approx.acos; atan2 := Approx.atan2;
     cos := Approx.cos; sin := Approx.sin |}.

(** ** Sample roads

    Straight polylines along the x axis, used to run the code. *)
Module Road.

Local Open Scope float_scope.

Definition east : list (float * float) := [(0, 0); (10, 0); (20, 0); (30, 0)].
Definition west : list (float * float) := [(30, 0); (20, 0); (10, 0); (0, 0)].
Definition arc : vec := [0; 10; 20; 30].
Definition long : list (float * float) := [(0, 0); (100, 0); (200, 0); (300, 0)].

End Road.

(** ** The claims' vocabulary

    The quantities the specification names, written from its wording; the
    theorems below relate them to the code above. *)
Section Vocabulary.

Context {libm : Libm}.

Local Open Scope float_scope.

(** Scalar speed of an obstacle, [sqrt(vx^2 + vy^2)]. *)
Definition obstacle_speed (c : Car) : float :=
  PrimFloat.sqrt (car_vx c * car_vx c + car_vy c * car_vy c).

(** Frenet coordinates of an obstacle: its position converted with the
    heading derived from its velocity. *)
Definition obstacle_frenet (c : Car) (maps_x maps_y : vec) : outcome (float * float) :=
  getFrenet (car_x c) (car_y c)
    (getTheta (car_vx c) (car_vy c) (obstacle_speed c)) maps_x maps_y.

(** Safety margin: [4.0 + 5.0 + |22.3 - ego_speed|]. *)
Definition safety_margin (ego_speed : float) : float :=
  4 + 5 + abs (0x1.64ccccccccccdp+4 - ego_speed).

(** Time to collision from the relative distance and the relative speed. *)
Definition ttc (dist relative_speed : float) : float :=
  if 0 <=? dist then (dist - 4) / relative_speed else (dist + 4) / relative_speed.

(** The obstacle at Frenet [obstacle_s] is within the safety margin. *)
Definition within_margin (obstacle_s ego_s ego_speed : float) : bool :=
  abs (obstacle_s - ego_s) <=? safety_margin ego_speed.

(** The obstacle's time to collision lies in [[0, 3.0]]. *)
Definition ttc_within_horizon (obstacle_s v ego_s ego_speed : float) : bool :=
  let t := ttc (obstacle_s - ego_s) (ego_speed - v) in
  (0 <=? t) && (t <=? 3).

(** The obstacle vetoes the lane change: it is within the safety margin, or
    its time to collision lies within the horizon. *)
Definition dangerous (c : Car) (ego_s ego_speed : float) (maps_x maps_y : vec) : Prop :=
  exists obstacle_s obstacle_d,
    obstacle_frenet c maps_x maps_y = Val (obstacle_s, obstacle_d) /\
    (within_margin obstacle_s ego_s ego_speed = true \/
     ttc_within_horizon obstacle_s (obstacle_speed c) ego_s ego_speed = true).

(** Left-to-right sum of doubles, from [0.0]. *)
Definition fsum (l : list float) : float := fold_left PrimFloat.add l 0.

(** Arithmetic mean of a list of doubles. *)
Definition mean (l : list float) : float :=
  fsum l / double_of_size (Z.of_nat (length l)).

(** The lane score as the specification writes it. *)
Definition lane_score (left_avg left_count right_avg right_count : float) : float :=
  (left_avg - right_avg) + (right_count - left_count).

(** The lane score in the order the source evaluates it. *)
Definition lane_score_ltr (left_avg left_count right_avg right_count : float) : float :=
  ((left_avg - right_avg) + right_count) - left_count.

(** A polyline given as points; the source keeps the coordinates in two
    parallel vectors, [maps_x] and [maps_y]. *)
Definition xs (pts : list (float * float)) : vec := map fst pts.
Definition ys (pts : list (float * float)) : vec := map snd pts.

(** Distance from the query point to waypoint [p]. *)
Definition dist_to (x y : float) (p : float * float) : float :=
  distance x y (fst p) (snd p).

(** Consecutive entries increase strictly. *)
Fixpoint strictly_increasing (v : vec) : bool :=
  match v with
  | a :: (b :: _) as v' => (a <? b) && strictly_increasing v'
  | _ => true
  end.

End Vocabulary.

(** ** Round trips between the two conversions

    The round-trip property in the specification's words: converting and
    converting back reconstructs both coordinates within a tolerance. *)
Section RoundTripVocabulary.

Context {libm : Libm}.

Local Open Scope float_scope.

(** [1e-6], as the nearest double. *)
Definition round_trip_tolerance : float := 0x1.0c6f7a0b5ed8dp-20.

Definition within (tol a b : float) : bool := abs (a - b) <=? tol.

(** [getXY (getFrenet (x, y, theta))] reconstructs [(x, y)]. *)
Definition xy_round_trip (tol x y theta : float) (maps_s maps_x maps_y : vec) : Prop :=
  exists s d x' y',
    getFrenet x y theta maps_x maps_y = Val (s, d) /\
    getXY s d maps_s maps_x maps_y = Val (x', y') /\
    within tol x' x = true /\ within tol y' y = true.

(** [getFrenet (getXY (s, d), theta)] reconstructs [(s, d)]. *)
Definition sd_round_trip (tol s d theta : float) (maps_s maps_x maps_y : vec) : Prop :=
  exists x y s' d',
    getXY s d maps_s maps_x maps_y = Val (x, y) /\
    getFrenet x y theta maps_x maps_y = Val (s', d') /\
    within tol s' s = true /\ within tol d' d = true.

End RoundTripVocabulary.

(** ** Signs and degenerate values

    Predicates used to state what the arithmetic of the code never
    produces. *)

(** NaN, or a number whose sign bit is clear ([+0], positive, [+inf]). *)
Definition SFnonneg (f : spec_float) : bool :=
  match f with
  | S754_nan => true
  | S754_zero s | S754_infinity s | S754_finite s _ _ => negb s
  end.

Definition sign_clear (x : float) : bool := SFnonneg (Prim2SF x).

(** A zero of either sign, or NaN: what a degenerate segment subtracts to. *)
Definition zero_or_nan (x : float) : Prop := (x =? 0)%float = true \/ x = nan.

(** ** The payload of a socket event: [hasData]

    A [std::string] is a [string] of bytes; a position is a natural number
    and [string::npos] is [None].  Sizes are 64-bit, so the count passed to
    [substr] wraps modulo [2^64]. *)
Module Payload.

Import Ascii String.

Local Open Scope string_scope.

(** [s.find(pat)], and [s.find_first_of(pat)] for a one-character [pat]:
    the first position where [pat] occurs. *)
Definition find (s pat : string) : option nat := index 0 pat s.

(** [s.substr(pos, count)] for [pos <= s.size()]: at most [count] characters
    from [pos], clipped at the end of [s]. *)
Definition substr (s : string) (pos : nat) (count : Z) : string :=
  substring pos (Z.to_nat (Z.min count (Z.of_nat (length s - pos)))) s.

Definition hasData (s : string) : string :=
  let found_null := find s "null" in
  let b1 := find s "[" in
  let b2 := find s "}" in
  match found_null with
  | Some _ => ""
  | None =>
      match b1, b2 with
      | Some b1, Some b2 =>
          substr s b1 ((Z.of_nat b2 - Z.of_nat b1 + 2) mod 2 ^ 64)
      | _, _ => ""
      end
  end.

End Payload.

(** * Binary64 facts

    Order and division facts of the primitive operations, obtained from
    their specification over [spec_float]. *)

Ltac cmp_split :=
  repeat match goal with
  | H : context [Z.compare ?a ?b] |- _ => destruct (Z.compare_spec a b)
  | |- context [Z.compare ?a ?b] => destruct (Z.compare_spec a b)
  | H : context [PosDef.Pos.compare_cont Eq ?a ?b] |- _ =>
      change (PosDef.Pos.compare_cont Eq a b) with (Pos.compare a b) in *;
      destruct (Pos.compare_spec a b)
  | |- context [PosDef.Pos.compare_cont Eq ?a ?b] =>
      change (PosDef.Pos.compare_cont Eq a b) with (Pos.compare a b) in *;
      destruct (Pos.compare_spec a b)
  end.

Ltac sf_order :=
  intros;
  repeat match goal with
  | x : spec_float |- _ => destruct x
  end;
  repeat match goal with
  | b : bool |- _ => destruct b
  end;
  unfold SFltb, SFleb, SFeqb, SFcompare in *;
  simpl in *; try discriminate; try reflexivity;
  cmp_split; simpl in *; subst; try discriminate; try reflexivity; try lia.

Section SpecFloatFacts.

Lemma SFltb_trans a b c : SFltb a b = true -> SFltb b c = true -> SFltb a c = true.
Proof. sf_order. Qed.

Lemma SFleb_ltb_trans a b c : SFleb a b = true -> SFltb b c = true -> SFltb a c = true.
Proof. sf_order. Qed.

Lemma SFltb_leb_trans a b c : SFltb a b = true -> SFleb b c = true -> SFltb a c = true.
Proof. sf_order. Qed.

Lemma SFltb_not_leb a b : SFltb a b = true -> SFleb b a = false.
Proof. sf_order. Qed.

Lemma SFleb_not_ltb a b : SFleb a b = true -> SFltb b a = false.
Proof. sf_order. Qed.

Lemma SFltb_irrefl a : SFltb a a = false.
Proof. sf_order. Qed.

Lemma SFltb_asym a b : SFltb a b = true -> SFltb b a = false.
Proof. sf_order. Qed.

Lemma SFnot_ltb_leb a b :
  SFeqb a a = true -> SFeqb b b = true -> SFltb a b = false -> SFleb b a = true.
Proof. sf_order. Qed.

Lemma SFnot_leb_ltb a b :
  SFeqb a a = true -> SFeqb b b = true -> SFleb a b = false -> SFltb b a = true.
Proof. sf_order. Qed.

Lemma SFltb_ordered_l a b : SFltb a b = true -> SFeqb a a = true.
Proof. sf_order. Qed.

Lemma SFltb_ordered_r a b : SFltb a b = true -> SFeqb b b = true.
Proof. sf_order. Qed.

Lemma SFleb_ordered_r a b : SFleb a b = true -> SFeqb b b = true.
Proof. sf_order. Qed.

Lemma SFeqb_zero a : SFeqb a (S754_zero false) = true -> exists s, a = S754_zero s.
Proof. destruct a as [s|s| |s m e]; try destruct s; try discriminate; eauto. Qed.

(** The difference of two equal numbers is a zero, or NaN for infinities. *)
Lemma SFsub_eqb a b :
  SFeqb a b = true ->
  SF64sub a b = S754_nan \/ exists s, SF64sub a b = S754_zero s.
Proof.
  destruct a as [sa|sa| |sa ma ea], b as [sb|sb| |sb mb eb];
    try discriminate; try destruct sa; try destruct sb;
    try discriminate; cbn [SF64sub SFsub]; eauto;
    unfold SFeqb, SFcompare;
    destruct (Z.compare_spec ea eb); try discriminate;
    change (PosDef.Pos.compare_cont Eq ma mb) with (Pos.compare ma mb);
    destruct (Pos.compare_spec ma mb); try discriminate; intros _; subst;
    rewrite Z.sub_diag; right; eexists; reflexivity.
Qed.

(** A quotient by zero is an infinity or NaN, never a finite number. *)
Lemma SFdiv_zero x s :
  SF64div x (S754_zero s) = S754_nan \/
  exists s', SF64div x (S754_zero s) = S754_infinity s'.
Proof. destruct x; simpl; eauto. Qed.

Local Open Scope Z_scope.

(** Multiplying by [1.0] is exact: the product's mantissa is the operand's,
    shifted left by 52 bits, and rounding shifts it back. *)
Lemma SFmul_one_r x : valid_binary x = true -> SF64mul x (Prim2SF 1%float) = x.
Proof.
  change (Prim2SF 1%float) with (S754_finite false 4503599627370496 (-52)).
  destruct x as [s|s| |s m e]; intros V;
    [destruct s; reflexivity | destruct s; reflexivity | reflexivity | ].
  unfold valid_binary, SpecFloat.bounded, canonical_mantissa, fexp, SpecFloat.emin in V.
  apply andb_true_iff in V. destruct V as [C B].
  apply Z.eqb_eq in C. apply Z.leb_le in B.
  unfold SF64mul, SFmul.
  rewrite Pos.mul_comm.
  unfold binary_round_aux, shr_fexp, fexp, SpecFloat.emin.
  cbn [Pos.mul Zdigits2 digits2_pos].
  match goal with |- context [Z.sub (Z.max ?a ?b) ?c] =>
    replace (Z.sub (Z.max a b) c) with 52 by (unfold prec, emax in *; lia) end.
  cbn [shr iter_pos shr_1 shr_record_of_loc shr_m shr_r shr_s orb
       loc_of_shr_record round_nearest_even Zdigits2].
  replace (e + -52 + 52) with e by lia.
  match goal with |- context [Z.sub (Z.max ?a ?b) ?c] =>
    replace (Z.sub (Z.max a b) c) with 0 by (unfold prec, emax in *; lia) end.
  cbn [shr shr_m shr_record_of_loc].
  replace (e <=? emax - prec) with true by (symmetry; apply Z.leb_le; exact B).
  rewrite xorb_false_r. reflexivity.
Qed.

Lemma digits2_pos_lower m : 2 ^ (Zpos (digits2_pos m) - 1) <= Zpos m.
Proof.
  induction m as [m IH | m IH | ]; cbn [digits2_pos];
    try (rewrite Pos2Z.inj_succ;
         replace (Z.succ (Zpos (digits2_pos m)) - 1)
           with (Z.succ (Zpos (digits2_pos m) - 1)) by lia;
         rewrite Z.pow_succ_r by lia; lia).
  simpl. lia.
Qed.

Lemma digits2_pos_small m : Zpos m < 2 ^ 53 -> Zpos (digits2_pos m) <= 53.
Proof.
  intros H.
  destruct (Z_le_gt_dec (Zpos (digits2_pos m)) 53) as [L | G]; [exact L | exfalso].
  pose proof (digits2_pos_lower m) as D.
  assert (2 ^ 53 <= 2 ^ (Zpos (digits2_pos m) - 1)) by (apply Z.pow_le_mono_r; lia).
  lia.
Qed.

Lemma digits2_pos_iter_xO m k :
  digits2_pos (Pos.iter xO m k) = (digits2_pos m + k)%positive.
Proof.
  induction k as [ | k IH] using Pos.peano_ind.
  - simpl. lia.
  - rewrite Pos.iter_succ. cbn [digits2_pos]. rewrite IH. lia.
Qed.

(** An integer below [2^53] converts exactly, to a finite positive number. *)
Lemma binary_round_small m :
  Zpos m < 2 ^ 53 ->
  exists mz ez, binary_round prec emax false m 0 = S754_finite false mz ez.
Proof.
  intros H. apply digits2_pos_small in H.
  assert (P : 0 < Zpos (digits2_pos m)) by lia.
  unfold binary_round, shl_align.
  assert (F : fexp prec emax (Zpos (digits2_pos m) + 0) = Zpos (digits2_pos m) - 53)
    by (unfold fexp, SpecFloat.emin, prec, emax; lia).
  rewrite F.
  assert (A : forall mz ez, Zpos (digits2_pos mz) = 53 -> -52 <= ez <= 0 ->
            binary_round_aux prec emax false (Zpos mz) ez loc_Exact
            = S754_finite false mz ez).
  { intros mz ez D E. unfold binary_round_aux, shr_fexp.
    cbn [Zdigits2]. rewrite D.
    replace (fexp prec emax (53 + ez) - ez) with 0
      by (unfold fexp, SpecFloat.emin, prec, emax; lia).
    cbn [shr shr_record_of_loc shr_m loc_of_shr_record round_nearest_even Zdigits2].
    rewrite D.
    replace (fexp prec emax (53 + ez) - ez) with 0
      by (unfold fexp, SpecFloat.emin, prec, emax; lia).
    cbn [shr shr_m].
    replace (ez <=? emax - prec) with true
      by (symmetry; apply Z.leb_le; unfold prec, emax; lia).
    reflexivity. }
  destruct (Zpos (digits2_pos m) - 53 - 0) as [ | p | p] eqn:E.
  - exists m, 0. apply A; lia.
  - lia.
  - exists (Pos.iter xO m p), (Zpos (digits2_pos m) - 53). apply A; [ | lia].
    rewrite digits2_pos_iter_xO. lia.
Qed.

End SpecFloatFacts.

Module Double.

Local Open Scope float_scope.

Lemma ltb_trans a b c : (a <? b) = true -> (b <? c) = true -> (a <? c) = true.
Proof. rewrite !ltb_spec. apply SFltb_trans. Qed.

Lemma leb_ltb_trans a b c : (a <=? b) = true -> (b <? c) = true -> (a <? c) = true.
Proof. rewrite !ltb_spec, leb_spec. apply SFleb_ltb_trans. Qed.

Lemma ltb_leb_trans a b c : (a <? b) = true -> (b <=? c) = true -> (a <? c) = true.
Proof. rewrite !ltb_spec, leb_spec. apply SFltb_leb_trans. Qed.

Lemma ltb_not_leb a b : (a <? b) = true -> (b <=? a) = false.
Proof. rewrite ltb_spec, leb_spec. apply SFltb_not_leb. Qed.

Lemma leb_not_ltb a b : (a <=? b) = true -> (b <? a) = false.
Proof. rewrite ltb_spec, leb_spec. apply SFleb_not_ltb. Qed.

Lemma ltb_irrefl a : (a <? a) = false.
Proof. rewrite ltb_spec. apply SFltb_irrefl. Qed.

Lemma ltb_asym a b : (a <? b) = true -> (b <? a) = false.
Proof. rewrite !ltb_spec. apply SFltb_asym. Qed.

(** Two numbers that are not NaN are comparable. *)
Lemma not_ltb_leb a b :
  (a =? a) = true -> (b =? b) = true -> (a <? b) = false -> (b <=? a) = true.
Proof. rewrite !eqb_spec, ltb_spec, leb_spec. apply SFnot_ltb_leb. Qed.

Lemma not_leb_ltb a b :
  (a =? a) = true -> (b =? b) = true -> (a <=? b) = false -> (b <? a) = true.
Proof. rewrite !eqb_spec, ltb_spec, leb_spec. apply SFnot_leb_ltb. Qed.

Lemma ltb_ordered_l a b : (a <? b) = true -> (a =? a) = true.
Proof. rewrite ltb_spec, eqb_spec. apply SFltb_ordered_l. Qed.

Lemma ltb_ordered_r a b : (a <? b) = true -> (b =? b) = true.
Proof. rewrite ltb_spec, eqb_spec. apply SFltb_ordered_r. Qed.

Lemma leb_ordered_r a b : (a <=? b) = true -> (b =? b) = true.
Proof. rewrite leb_spec, eqb_spec. apply SFleb_ordered_r. Qed.

(** A zero is [+0] or [-0]. *)
Lemma eqb_zero z : (z =? 0) = true -> z = 0 \/ z = (-0).
Proof.
  rewrite eqb_spec. intros H.
  destruct (SFeqb_zero _ H) as [s Hs].
  rewrite <- (SF2Prim_Prim2SF z), Hs.
  destruct s; [right | left]; reflexivity.
Qed.

(** Dividing by a zero gives an infinity or NaN. *)
Lemma div_zero x z :
  (z =? 0) = true -> x / z = nan \/ x / z = infinity \/ x / z = neg_infinity.
Proof.
  rewrite eqb_spec. intros H.
  destruct (SFeqb_zero _ H) as [s Hs].
  rewrite <- (SF2Prim_Prim2SF (x / z)), div_spec, Hs.
  destruct (SFdiv_zero (Prim2SF x) s) as [E | [s' E]]; rewrite E.
  - left. reflexivity.
  - right. destruct s'; [right | left]; reflexivity.
Qed.

Lemma div_nan_r x : x / nan = nan.
Proof.
  rewrite <- (SF2Prim_Prim2SF (x / nan)), div_spec.
  change (Prim2SF nan) with S754_nan.
  destruct (Prim2SF x); reflexivity.
Qed.

(** The difference of two equal doubles is a zero, or NaN (for two equal
    infinities). *)
Lemma sub_eqb a b : (a =? b) = true -> (a - b =? 0) = true \/ a - b = nan.
Proof.
  rewrite eqb_spec. intros H.
  destruct (SFsub_eqb _ _ H) as [E | [s E]].
  - right. rewrite <- (SF2Prim_Prim2SF (a - b)), sub_spec, E. reflexivity.
  - left. rewrite eqb_spec, sub_spec, E. destruct s; reflexivity.
Qed.

(** A quotient by a zero or by NaN is never in a window [[0, hi]] with [hi]
    finite. *)
Lemma div_degenerate_outside x z hi :
  (z =? 0) = true \/ z = nan ->
  (hi <? infinity) = true ->
  (0 <=? x / z) && (x / z <=? hi) = false.
Proof.
  intros [Z | ->] Hhi.
  - destruct (div_zero x z Z) as [-> | [-> | ->]]; try reflexivity.
    cbn [andb]. change (0 <=? infinity) with true. cbn [andb].
    apply ltb_not_leb, Hhi.
  - rewrite div_nan_r. reflexivity.
Qed.

(** [x * 1.0] is [x], for every double. *)
Lemma mul_1_r x : x * 1 = x.
Proof.
  apply Prim2SF_inj. rewrite mul_spec. apply SFmul_one_r, Prim2SF_valid.
Qed.

(** The size of a non-empty container converts to a positive double. *)
Lemma double_of_size_pos n :
  (0 < n < 2 ^ 53)%Z -> (0 <? double_of_size n) = true.
Proof.
  intros [L U]. unfold double_of_size.
  rewrite ltb_spec, of_uint63_spec, Uint63.of_Z_spec.
  rewrite Z.mod_small by (change Uint63.wB with (2 ^ 63)%Z; lia).
  destruct n as [ | m | m]; try lia.
  destruct (binary_round_small m U) as (mz & ez & E).
  cbn [binary_normalize]. rewrite E. reflexivity.
Qed.

End Double.

(** * Vector reads *)

Lemma vec_at_nth (v : vec) (i : nat) :
  v.[Z.of_nat i] = match nth_error v i with
                   | Some a => Val a
                   | None => Fault (OutOfRange (Z.of_nat i) (size v))
                   end.
Proof.
  unfold vec_at.
  destruct (Z.ltb_spec (Z.of_nat i) 0) as [H | H]; [lia | ].
  rewrite Nat2Z.id. reflexivity.
Qed.

Lemma vec_at_in_range (v : vec) (i : Z) :
  (0 <= i < size v)%Z -> exists a, v.[i] = Val a /\ nth_error v (Z.to_nat i) = Some a.
Proof.
  intros [L U]. unfold vec_at, size in *.
  destruct (Z.ltb_spec i 0) as [H | H]; [lia | ].
  destruct (nth_error v (Z.to_nat i)) as [a | ] eqn:E.
  - exists a. split; reflexivity.
  - apply nth_error_None in E. lia.
Qed.

Lemma vec_at_out_of_range (v : vec) (i : Z) :
  ~ (0 <= i < size v)%Z -> v.[i] = Fault (OutOfRange i (size v)).
Proof.
  intros H. unfold vec_at, size in *.
  destruct (Z.ltb_spec i 0) as [L | L]; [reflexivity | ].
  destruct (nth_error v (Z.to_nat i)) as [a | ] eqn:E; [ | reflexivity].
  assert (Z.to_nat i < length v)%nat by (apply nth_error_Some; congruence).
  lia.
Qed.

Lemma vec_at_val_range (v : vec) (i : Z) (a : float) :
  v.[i] = Val a -> (0 <= i < size v)%Z.
Proof.
  intros H.
  destruct (Z_le_gt_dec 0 i) as [L | G];
    [destruct (Z_lt_ge_dec i (size v)) as [U | U]; [lia | ] | ];
    rewrite vec_at_out_of_range in H by lia; discriminate.
Qed.

Lemma size_xs pts : size (xs pts) = Z.of_nat (length pts).
Proof. unfold size, xs. rewrite length_map. reflexivity. Qed.

Lemma size_ys pts : size (ys pts) = Z.of_nat (length pts).
Proof. unfold size, ys. rewrite length_map. reflexivity. Qed.

Lemma xs_at pts i p :
  nth_error pts i = Some p -> (xs pts).[Z.of_nat i] = Val (fst p).
Proof. intros H. rewrite vec_at_nth. unfold xs. rewrite nth_error_map, H. reflexivity. Qed.

Lemma ys_at pts i p :
  nth_error pts i = Some p -> (ys pts).[Z.of_nat i] = Val (snd p).
Proof. intros H. rewrite vec_at_nth. unfold ys. rewrite nth_error_map, H. reflexivity. Qed.

Lemma pts_at pts (i : Z) :
  (0 <= i < Z.of_nat (length pts))%Z ->
  exists p, nth_error pts (Z.to_nat i) = Some p /\
            (xs pts).[i] = Val (fst p) /\ (ys pts).[i] = Val (snd p).
Proof.
  intros H.
  destruct (nth_error pts (Z.to_nat i)) as [p | ] eqn:E.
  - exists p. split; [reflexivity | ].
    rewrite <- (Z2Nat.id i) by lia.
    split; [apply xs_at | apply ys_at]; exact E.
  - apply nth_error_None in E. lia.
Qed.

(** * Lane information and lane comparison *)

Section LaneTheorems.

Local Open Scope float_scope.

Lemma getLaneInfo_sum_fold cars acc :
  getLaneInfo_sum cars acc = fold_left PrimFloat.add (map obstacle_speed cars) acc.
Proof.
  revert acc. induction cars as [ | c cars IH]; intros acc; simpl.
  - reflexivity.
  - rewrite IH. reflexivity.
Qed.

(** C7.  [getLaneInfo] of no obstacle is [(25.0, 0.0)]; of a non-empty list
    (shorter than [2^31], the range of the loop counter) it is the arithmetic
    mean of the obstacles' scalar speeds together with their count; of a
    single obstacle with velocity [(10, 0)] it is [(10.0, 1.0)]. *)
Theorem getLaneInfo_summary :
  getLaneInfo [] = [25; 0] /\
  (forall cars : list Car,
      cars <> [] -> (Z.of_nat (length cars) < 2 ^ 31)%Z ->
      getLaneInfo cars =
        [mean (map obstacle_speed cars); double_of_size (Z.of_nat (length cars))]) /\
  (forall id x y : float, getLaneInfo [mkCar id x y 10 0] = [10; 1]).
Proof.
  split; [reflexivity | split].
  - intros cars NE LEN. unfold getLaneInfo.
    rewrite Double.double_of_size_pos.
    + unfold mean, fsum. rewrite getLaneInfo_sum_fold, length_map. reflexivity.
    + destruct cars as [ | c cars]; [congruence | ].
      cbn [length] in *. split; [lia | ].
      apply Z.lt_trans with (2 ^ 31)%Z; [exact LEN | reflexivity].
  - intros id x y. reflexivity.
Qed.

Lemma getLaneInfo_summary_witness :
  getLaneInfo [mkCar 0 0 0 3 4; mkCar 1 0 0 6 8] = [0x1.ep+2; 2].
Proof.
  destruct getLaneInfo_summary as (_ & H & _).
  rewrite H; [reflexivity | discriminate | reflexivity].
Defined.

(** C8, as the code has it.  [cmpLaneConditions] prefers the left lane
    exactly when the score [((left.avg - right.avg) + right.count) - left.count],
    evaluated from left to right in double arithmetic, is at least zero; a
    score of exactly zero prefers left, and the lanes [(20, 2)] and [(15, 0)]
    give left. *)
Theorem cmpLaneConditions_left_to_right :
  (forall left_avg left_count right_avg right_count : float,
      cmpLaneConditions [left_avg; left_count] [right_avg; right_count]
      = Val (0 <=? lane_score_ltr left_avg left_count right_avg right_count)) /\
  cmpLaneConditions [20; 2] [15; 0] = Val true.
Proof.
  split; [ | reflexivity].
  intros. cbv [cmpLaneConditions lane_score_ltr bind vec_at nth_error Z.ltb
               Z.compare Z.to_nat Pos.to_nat Pos.iter_op Nat.add].
  destruct (0 <=? left_avg - right_avg + right_count - left_count); reflexivity.
Qed.

(** C8 does not hold for the score as the specification groups it: with
    lanes [(0, 1)] and [(2^-60, 1)] the grouped score is [-2^-60], below
    zero, while the code rounds [-2^-60 + 1] to [1] and answers left.  Both
    lanes are summaries [getLaneInfo] produces, of one car each. *)
Lemma cmpLaneConditions_grouping_counterexample :
  cmpLaneConditions [0; 1] [0x1p-60; 1] = Val true /\
  (0 <=? lane_score 0 1 0x1p-60 1) = false /\
  getLaneInfo [mkCar 1 0 0 0 0] = [0; 1] /\
  getLaneInfo [mkCar 2 0 0 0x1p-60 0] = [0x1p-60; 1].
Proof. repeat split; reflexivity. Qed.

End LaneTheorems.

(** * Heading of an obstacle *)

Section ThetaTheorems.

Context {libm : Libm}.

Local Open Scope float_scope.

(** At zero velocity the quotient [vx / speed] is [0 / 0]. *)
Lemma getTheta_zero_speed_arg (vx vy : float) :
  (vx =? 0) = true -> (vy =? 0) = true ->
  getTheta vx vy (getAbsSpeed vx vy) = acos nan.
Proof.
  intros Hx Hy.
  destruct (Double.eqb_zero _ Hx) as [-> | ->];
    destruct (Double.eqb_zero _ Hy) as [-> | ->]; reflexivity.
Qed.

(** C3 fails on the code.  For an obstacle with velocity [(0, 0)] the heading
    is [acos] of [0/0]; with a math library that maps NaN to NaN, as C's
    does, [getTheta] returns NaN, not a finite heading. *)
Theorem getTheta_zero_speed_nan (vx vy : float) :
  acos nan = nan ->
  (vx =? 0) = true -> (vy =? 0) = true ->
  is_nan (getTheta vx vy (getAbsSpeed vx vy)) = true /\
  is_finite (getTheta vx vy (getAbsSpeed vx vy)) = false.
Proof.
  intros A Hx Hy. rewrite getTheta_zero_speed_arg, A by assumption.
  split; reflexivity.
Qed.

End ThetaTheorems.

Lemma getTheta_zero_speed_nan_witness :
  is_nan (getTheta (libm := approx_libm) 0 0 (getAbsSpeed 0 0)) = true /\
  is_finite (getTheta (libm := approx_libm) 0 0 (getAbsSpeed 0 0)) = false.
Proof.
  apply (getTheta_zero_speed_nan (libm := approx_libm) 0 0); reflexivity.
Defined.

(** * ClosestWaypoint *)

Section ClosestWaypointTheorems.

Local Open Scope float_scope.

Variables (x y : float) (pts : list (float * float)).

(** The scan from index [i] on, started with the bound [cl] and the index
    [cw]: either no later waypoint is below the bound and [cw] is kept, or
    the result is the first waypoint from [i] on that no other one beats. *)
Lemma ClosestWaypoint_loop_spec (todo : nat) :
  forall (i : nat) (cl : float) (cw : Z),
    (i + todo = length pts)%nat ->
    exists k,
      ClosestWaypoint_loop todo (Z.of_nat i) x y (xs pts) (ys pts) cl cw = Val k /\
      ((k = cw /\
        forall j q, (i <= j)%nat -> nth_error pts j = Some q ->
                    (dist_to x y q <? cl) = false) \/
       (exists kn p,
           k = Z.of_nat kn /\ (i <= kn)%nat /\ nth_error pts kn = Some p /\
           (dist_to x y p <? cl) = true /\
           (forall j q, (i <= j)%nat -> nth_error pts j = Some q ->
                        (dist_to x y q <? dist_to x y p) = false) /\
           (forall j q, (i <= j < kn)%nat -> nth_error pts j = Some q ->
                        (dist_to x y q <=? dist_to x y p) = false))).
Proof.
  induction todo as [ | todo IH]; intros i cl cw Hlen.
  - exists cw. split; [reflexivity | left; split; [reflexivity | ] ].
    intros j q Hj Hq.
    assert (j < length pts)%nat by (apply nth_error_Some; congruence). lia.
  - destruct (nth_error pts i) as [p | ] eqn:Ep;
      [ | apply nth_error_None in Ep; lia].
    cbn [ClosestWaypoint_loop].
    rewrite (xs_at _ _ _ Ep), (ys_at _ _ _ Ep). cbn [bind].
    replace (Z.of_nat i + 1)%Z with (Z.of_nat (S i)) by lia.
    change (distance x y (fst p) (snd p)) with (dist_to x y p).
    destruct (dist_to x y p <? cl) eqn:Hd.
    + destruct (IH (S i) (dist_to x y p) (Z.of_nat i) ltac:(lia))
        as (k & Hk & [[-> Hall] | (kn & p' & -> & Hle & Hn & Hlt & Hmin & Hfirst)]).
      * exists (Z.of_nat i). split; [exact Hk | right].
        exists i, p. repeat split; auto.
        -- intros j q Hj Hq. destruct (Nat.eq_dec j i) as [-> | Hne].
           ++ replace q with p by congruence. apply Double.ltb_irrefl.
           ++ apply (Hall j); [lia | exact Hq].
        -- intros j q Hj. lia.
      * exists (Z.of_nat kn). split; [exact Hk | right].
        exists kn, p'. repeat split; auto; try lia.
        -- apply Double.ltb_trans with (dist_to x y p); assumption.
        -- intros j q Hj Hq. destruct (Nat.eq_dec j i) as [-> | Hne].
           ++ replace q with p by congruence. apply Double.ltb_asym, Hlt.
           ++ apply (Hmin j); [lia | exact Hq].
        -- intros j q Hj Hq. destruct (Nat.eq_dec j i) as [-> | Hne].
           ++ replace q with p by congruence. apply Double.ltb_not_leb, Hlt.
           ++ apply (Hfirst j); [lia | exact Hq].
    + destruct (IH (S i) cl cw ltac:(lia))
        as (k & Hk & [[-> Hall] | (kn & p' & -> & Hle & Hn & Hlt & Hmin & Hfirst)]).
      * exists cw. split; [exact Hk | left; split; [reflexivity | ] ].
        intros j q Hj Hq. destruct (Nat.eq_dec j i) as [-> | Hne].
        -- replace q with p by congruence. exact Hd.
        -- apply (Hall j); [lia | exact Hq].
      * exists (Z.of_nat kn). split; [exact Hk | right].
        exists kn, p'. repeat split; auto; try lia.
        -- intros j q Hj Hq. destruct (Nat.eq_dec j i) as [-> | Hne].
           ++ replace q with p by congruence.
              destruct (dist_to x y p <? dist_to x y p') eqn:C; [ | reflexivity].
              rewrite (Double.ltb_trans _ _ _ C Hlt) in Hd. discriminate.
           ++ apply (Hmin j); [lia | exact Hq].
        -- intros j q Hj Hq. destruct (Nat.eq_dec j i) as [-> | Hne].
           ++ replace q with p by congruence.
              destruct (dist_to x y p <=? dist_to x y p') eqn:C; [ | reflexivity].
              rewrite (Double.leb_ltb_trans _ _ _ C Hlt) in Hd. discriminate.
           ++ apply (Hfirst j); [lia | exact Hq].
Qed.

(** On a non-empty polyline every read of [ClosestWaypoint] is in range, and
    so is the index it returns. *)
Lemma ClosestWaypoint_in_range :
  pts <> [] ->
  exists k, ClosestWaypoint x y (xs pts) (ys pts) = Val k /\
            (0 <= k < Z.of_nat (length pts))%Z.
Proof.
  intros NE. unfold ClosestWaypoint.
  replace (length (xs pts)) with (length pts) by (unfold xs; now rewrite length_map).
  destruct (ClosestWaypoint_loop_spec (length pts) 0 100000 0 eq_refl)
    as (k & Hk & [[-> _] | (kn & p & -> & _ & Hn & _)]).
  - exists 0%Z. split; [exact Hk | ].
    destruct pts; [congruence | cbn [length]; lia].
  - exists (Z.of_nat kn). split; [exact Hk | ].
    assert (kn < length pts)%nat by (apply nth_error_Some; congruence). lia.
Qed.

(** When every waypoint is [100000] or more away, the scan keeps index [0]. *)
Lemma ClosestWaypoint_all_far :
  (forall j q, nth_error pts j = Some q -> (dist_to x y q <? 100000) = false) ->
  ClosestWaypoint x y (xs pts) (ys pts) = Val 0%Z.
Proof.
  intros Far. unfold ClosestWaypoint.
  replace (length (xs pts)) with (length pts) by (unfold xs; now rewrite length_map).
  destruct (ClosestWaypoint_loop_spec (length pts) 0 100000 0 eq_refl)
    as (k & Hk & [[-> _] | (kn & p & -> & _ & Hn & Hlt & _)]).
  - exact Hk.
  - rewrite (Far kn p Hn) in Hlt. discriminate.
Qed.

(** X24.  When some waypoint is at a computed distance below [100000] (the
    initial [closestLen]) from [(x, y)], [ClosestWaypoint] returns the index
    [k] of a waypoint whose computed distance (the double that [distance]
    returns) no waypoint's is below, and every waypoint before [k] has a
    strictly greater computed distance (or a NaN one). *)
Theorem ClosestWaypoint_nearest_within_bound (k0 : nat) (p0 : float * float) :
  nth_error pts k0 = Some p0 ->
  (dist_to x y p0 <? 100000) = true ->
  exists (k : nat) (p : float * float),
    ClosestWaypoint x y (xs pts) (ys pts) = Val (Z.of_nat k) /\
    nth_error pts k = Some p /\
    (forall j q, nth_error pts j = Some q ->
                 (dist_to x y q <? dist_to x y p) = false) /\
    (forall j q, (j < k)%nat -> nth_error pts j = Some q ->
                 (dist_to x y q <=? dist_to x y p) = false).
Proof.
  intros H0 Hnear. unfold ClosestWaypoint.
  replace (length (xs pts)) with (length pts) by (unfold xs; now rewrite length_map).
  destruct (ClosestWaypoint_loop_spec (length pts) 0 100000 0 eq_refl)
    as (k & Hk & [[-> Hall] | (kn & p & -> & _ & Hn & Hlt & Hmin & Hfirst)]).
  - rewrite (Hall k0 p0 ltac:(lia) H0) in Hnear. discriminate.
  - exists kn, p. repeat split; auto.
    + intros j q Hq. apply (Hmin j); [lia | exact Hq].
    + intros j q Hj Hq. apply (Hfirst j); [lia | exact Hq].
Qed.

End ClosestWaypointTheorems.

Lemma ClosestWaypoint_nearest_within_bound_witness :
  exists (k : nat) (p : float * float),
    ClosestWaypoint 12 1 (xs [(0, 0); (10, 0); (20, 0); (10, 0)]%float)
                         (ys [(0, 0); (10, 0); (20, 0); (10, 0)]%float)
      = Val (Z.of_nat k) /\
    nth_error [(0, 0); (10, 0); (20, 0); (10, 0)]%float k = Some p /\
    (forall j q, nth_error [(0, 0); (10, 0); (20, 0); (10, 0)]%float j = Some q ->
                 (dist_to 12 1 q <? dist_to 12 1 p)%float = false) /\
    (forall j q, (j < k)%nat ->
                 nth_error [(0, 0); (10, 0); (20, 0); (10, 0)]%float j = Some q ->
                 (dist_to 12 1 q <=? dist_to 12 1 p)%float = false).
Proof.
  apply (ClosestWaypoint_nearest_within_bound 12 1
           [(0, 0); (10, 0); (20, 0); (10, 0)]%float 2 (20, 0)%float);
    reflexivity.
Defined.

(** C5 fails on the code.  The scan starts from [closestLen = 100000], a
    finite stand-in for "no waypoint yet": with waypoints [(200000, 0)] and
    [(150000, 0)] and the query point [(0, 0)], no distance is below
    [100000], so index [0] is returned although waypoint [1] is closer. *)
Lemma ClosestWaypoint_far_counterexample :
  ClosestWaypoint 0 0 (xs [(200000, 0); (150000, 0)]%float)
                      (ys [(200000, 0); (150000, 0)]%float) = Val 0%Z /\
  (dist_to 0 0 (150000, 0) <? dist_to 0 0 (200000, 0))%float = true.
Proof. split; reflexivity. Qed.

(** * NextWaypoint and getFrenet: reads stay in range *)

Section FrenetTheorems.

Context {libm : Libm}.

Local Open Scope float_scope.

Variable pts : list (float * float).

Lemma NextWaypoint_in_range (x y theta : float) :
  pts <> [] ->
  exists k, NextWaypoint x y theta (xs pts) (ys pts) = Val k /\
            (0 <= k < Z.of_nat (length pts))%Z.
Proof.
  intros NE. unfold NextWaypoint.
  destruct (ClosestWaypoint_in_range x y pts NE) as (k & -> & R). cbn [bind].
  destruct (pts_at pts k R) as (p & _ & -> & ->). cbn [bind].
  destruct (pi / 2 <? _).
  - rewrite size_xs. destruct (Z.eqb_spec (k + 1) (Z.of_nat (length pts))).
    + exists 0%Z. split; [reflexivity | lia].
    + exists (k + 1)%Z. split; [reflexivity | lia].
  - exists k. split; [reflexivity | exact R].
Qed.

Lemma getFrenet_sum_in_range (todo : nat) :
  forall (i : Z) (acc : float),
    (0 <= i)%Z -> (i + Z.of_nat todo < Z.of_nat (length pts))%Z ->
    exists r, getFrenet_sum todo i (xs pts) (ys pts) acc = Val r.
Proof.
  induction todo as [ | todo IH]; intros i acc L U.
  - exists acc. reflexivity.
  - cbn [getFrenet_sum].
    destruct (pts_at pts i ltac:(lia)) as (p & _ & -> & ->).
    destruct (pts_at pts (i + 1) ltac:(lia)) as (q & _ & -> & ->).
    cbn [bind]. apply IH; lia.
Qed.

(** On a non-empty polyline [getFrenet] performs no read out of range. *)
Lemma getFrenet_in_range (x y theta : float) :
  pts <> [] ->
  exists s d, getFrenet x y theta (xs pts) (ys pts) = Val (s, d).
Proof.
  intros NE. unfold getFrenet.
  destruct (NextWaypoint_in_range x y theta NE) as (k & -> & R). cbn [bind].
  rewrite size_xs.
  set (prev := if (k =? 0)%Z then (Z.of_nat (length pts) - 1)%Z else (k - 1)%Z).
  assert (P : (0 <= prev < Z.of_nat (length pts))%Z)
    by (subst prev; destruct (Z.eqb_spec k 0); lia).
  destruct (pts_at pts k R) as (p & _ & -> & ->).
  destruct (pts_at pts prev P) as (q & _ & -> & ->).
  cbn [bind].
  destruct (getFrenet_sum_in_range (Z.to_nat prev) 0 0 ltac:(lia) ltac:(lia))
    as (r & ->).
  cbn [bind]. eauto.
Qed.

End FrenetTheorems.

(** * safeToChangeLane *)

Section SafetyTheorems.

Context {libm : Libm}.

Local Open Scope float_scope.

(** The code's margin is the specification's: [* 1.0] changes nothing. *)
Lemma safety_distance_margin (car_speed : float) :
  safety_distance car_speed = safety_margin car_speed.
Proof. unfold safety_distance, safety_margin. rewrite Double.mul_1_r. reflexivity. Qed.

(** One iteration of the loop, in the specification's vocabulary. *)
Lemma safeToChangeLane_loop_step (c : Car) (cars : list Car)
    (car_s car_speed : float) (maps_x maps_y : vec) (flag : bool) (s d : float) :
  obstacle_frenet c maps_x maps_y = Val (s, d) ->
  safeToChangeLane_loop (c :: cars) car_s car_speed maps_x maps_y flag =
    if within_margin s car_s car_speed then Val false
    else if ttc_within_horizon s (obstacle_speed c) car_s car_speed
         then safeToChangeLane_loop cars car_s car_speed maps_x maps_y false
         else safeToChangeLane_loop cars car_s car_speed maps_x maps_y flag.
Proof.
  intros F. cbn [safeToChangeLane_loop].
  change (getAbsSpeed (car_vx c) (car_vy c)) with (obstacle_speed c).
  unfold obstacle_frenet in F. rewrite F. cbn [bind fst].
  rewrite safety_distance_margin. reflexivity.
Qed.

Lemma safeToChangeLane_loop_spec (car_s car_speed : float)
    (pts : list (float * float)) (cars : list Car) :
  pts <> [] ->
  forall flag : bool,
  exists b : bool,
    safeToChangeLane_loop cars car_s car_speed (xs pts) (ys pts) flag = Val b /\
    (b = false <->
     flag = false \/
     exists c, In c cars /\ dangerous c car_s car_speed (xs pts) (ys pts)).
Proof.
  intros NE. induction cars as [ | c cars IH]; intros flag.
  - exists flag. split; [reflexivity | ]. split; [auto | ].
    intros [H | (c & [] & _)]. exact H.
  - destruct (getFrenet_in_range pts (car_x c) (car_y c)
                (getTheta (car_vx c) (car_vy c) (obstacle_speed c)) NE)
      as (s & d & F).
    rewrite (safeToChangeLane_loop_step c cars car_s car_speed _ _ flag s d F).
    destruct (within_margin s car_s car_speed) eqn:M.
    + exists false. split; [reflexivity | ]. split; [ | reflexivity].
      intros _. right. exists c. split; [left; reflexivity | ].
      exists s, d. auto.
    + destruct (ttc_within_horizon s (obstacle_speed c) car_s car_speed) eqn:T.
      * destruct (IH false) as (b & Hb & Hiff). exists b. split; [exact Hb | ].
        split.
        -- intros _. right. exists c. split; [left; reflexivity | ].
           exists s, d. auto.
        -- intros _. apply Hiff. left. reflexivity.
      * destruct (IH flag) as (b & Hb & Hiff). exists b. split; [exact Hb | ].
        rewrite Hiff. split.
        -- intros [H | (c' & Hin & D)]; [left; exact H | right].
           exists c'. split; [right; exact Hin | exact D].
        -- intros [H | (c' & [<- | Hin] & D)]; [left; exact H | | ].
           ++ destruct D as (s' & d' & F' & D).
              unfold obstacle_frenet in F'. unfold obstacle_frenet in F.
              rewrite F in F'. injection F' as <- <-.
              rewrite M, T in D. destruct D; discriminate.
           ++ right. exists c'. split; assumption.
Qed.

(** C1.  On a (non-empty) waypoint polyline, [safeToChangeLane] returns
    false exactly when some obstacle is within the safety margin
    [4.0 + 5.0 + |22.3 - ego_speed|] or has its time to collision in
    [[0, 3.0]], and true otherwise. *)
Theorem safeToChangeLane_false_iff_dangerous
    (cars : list Car) (car_s car_speed : float)
    (pts : list (float * float)) (delta_t : float) :
  pts <> [] ->
  exists b : bool,
    safeToChangeLane cars car_s car_speed (xs pts) (ys pts) delta_t = Val b /\
    (b = false <->
     exists c, In c cars /\ dangerous c car_s car_speed (xs pts) (ys pts)) /\
    (b = true <->
     ~ exists c, In c cars /\ dangerous c car_s car_speed (xs pts) (ys pts)).
Proof.
  intros NE. unfold safeToChangeLane.
  destruct (safeToChangeLane_loop_spec car_s car_speed pts cars NE true)
    as (b & Hb & Hiff).
  exists b. split; [exact Hb | ].
  assert (E : b = false <->
              exists c, In c cars /\ dangerous c car_s car_speed (xs pts) (ys pts)).
  { rewrite Hiff. split; [intros [H | H]; [discriminate | exact H] | auto]. }
  split; [exact E | ].
  rewrite <- E. destruct b; split; congruence.
Qed.

(** With a relative speed that is a zero or NaN the time to collision is an
    infinity or NaN, and never within the horizon. *)
Lemma ttc_degenerate_outside (s v car_s car_speed : float) :
  (car_speed - v =? 0) = true \/ car_speed - v = nan ->
  ttc_within_horizon s v car_s car_speed = false.
Proof.
  intros E. unfold ttc_within_horizon, ttc.
  destruct (0 <=? s - car_s);
    apply Double.div_degenerate_outside; solve [exact E | reflexivity].
Qed.

(** An obstacle as fast as the ego car is never within the time horizon:
    the relative speed is a zero (or NaN, for infinite speeds). *)
Lemma ttc_equal_speed_outside (s v car_s car_speed : float) :
  (car_speed =? v) = true \/ (car_speed - v =? 0) = true ->
  ttc_within_horizon s v car_s car_speed = false.
Proof.
  intros [E | E]; apply ttc_degenerate_outside;
    [apply Double.sub_eqb, E | left; exact E].
Qed.

(** Such an obstacle, beyond the margin, leaves the loop's flag unchanged. *)
Lemma safeToChangeLane_loop_skip (c : Car) (cars2 : list Car)
    (car_s car_speed : float) (maps_x maps_y : vec) (s d : float) :
  obstacle_frenet c maps_x maps_y = Val (s, d) ->
  within_margin s car_s car_speed = false ->
  ttc_within_horizon s (obstacle_speed c) car_s car_speed = false ->
  forall (cars1 : list Car) (flag : bool),
    safeToChangeLane_loop (cars1 ++ c :: cars2) car_s car_speed maps_x maps_y flag =
    safeToChangeLane_loop (cars1 ++ cars2) car_s car_speed maps_x maps_y flag.
Proof.
  intros F M T. induction cars1 as [ | c1 cars1 IH]; intros flag.
  - cbn [app]. rewrite (safeToChangeLane_loop_step c cars2 _ _ _ _ flag s d F), M, T.
    reflexivity.
  - cbn [app safeToChangeLane_loop].
    destruct (getFrenet _ _ _ maps_x maps_y) as [fr | f]; cbn [bind]; [ | reflexivity].
    destruct (_ <=? safety_distance car_speed); [reflexivity | ].
    destruct (_ && _); apply IH.
Qed.

(** C4.  An obstacle whose speed equals the ego speed (or whose relative
    speed is zero) and whose distance exceeds the safety margin is not
    dangerous: its time to collision is outside [[0, 3.0]], it does not end
    the check, and the verdict is the one obtained without it. *)
Theorem safeToChangeLane_equal_speed_not_dangerous
    (cars1 : list Car) (c : Car) (cars2 : list Car) (car_s car_speed : float)
    (maps_x maps_y : vec) (delta_t s d : float) :
  obstacle_frenet c maps_x maps_y = Val (s, d) ->
  (car_speed =? obstacle_speed c) = true \/
  (car_speed - obstacle_speed c =? 0) = true ->
  (safety_margin car_speed <? abs (s - car_s)) = true ->
  ~ dangerous c car_s car_speed maps_x maps_y /\
  safeToChangeLane (cars1 ++ c :: cars2) car_s car_speed maps_x maps_y delta_t =
  safeToChangeLane (cars1 ++ cars2) car_s car_speed maps_x maps_y delta_t.
Proof.
  intros F E G.
  assert (M : within_margin s car_s car_speed = false)
    by (apply Double.ltb_not_leb, G).
  assert (T : ttc_within_horizon s (obstacle_speed c) car_s car_speed = false)
    by (apply ttc_equal_speed_outside, E).
  split.
  - intros (s' & d' & F' & D). rewrite F in F'. injection F' as <- <-.
    rewrite M, T in D. destruct D; discriminate.
  - unfold safeToChangeLane. apply (safeToChangeLane_loop_skip c cars2 _ _ _ _ s d F M T).
Qed.

(** C9.  The [delta_t] argument has no influence on the verdict; the horizon
    in use is the constant [3.0]. *)
Theorem safeToChangeLane_ignores_delta_t
    (cars : list Car) (car_s car_speed : float) (maps_x maps_y : vec)
    (t1 t2 : float) :
  safeToChangeLane cars car_s car_speed maps_x maps_y t1 =
  safeToChangeLane cars car_s car_speed maps_x maps_y t2 /\
  t_horizon = 3.
Proof. split; reflexivity. Qed.

End SafetyTheorems.

Lemma safeToChangeLane_false_iff_dangerous_witness :
  exists c, In c [mkCar 7 95 2 20 0; mkCar 8 205 2 2 0]%float /\
            dangerous (libm := approx_libm) c 5 100
              (xs [(0, 0); (100, 0); (200, 0); (300, 0)]%float)
              (ys [(0, 0); (100, 0); (200, 0); (300, 0)]%float).
Proof.
  destruct (safeToChangeLane_false_iff_dangerous (libm := approx_libm)
              [mkCar 7 95 2 20 0; mkCar 8 205 2 2 0]%float 5 100
              [(0, 0); (100, 0); (200, 0); (300, 0)]%float 3 ltac:(discriminate))
    as (b & Hb & Hfalse & _).
  apply Hfalse. vm_compute in Hb. congruence.
Defined.

Lemma safeToChangeLane_equal_speed_not_dangerous_witness :
  ~ dangerous (libm := approx_libm) (mkCar 7 95 2 20 0)%float 5 20
      (xs [(0, 0); (30, 0); (60, 0); (90, 0); (120, 0)]%float)
      (ys [(0, 0); (30, 0); (60, 0); (90, 0); (120, 0)]%float) /\
  safeToChangeLane (libm := approx_libm)
    ([mkCar 3 40 2 10 0] ++ mkCar 7 95 2 20 0 :: [mkCar 9 70 (-2) 30 0])%float 5 20
    (xs [(0, 0); (30, 0); (60, 0); (90, 0); (120, 0)]%float)
    (ys [(0, 0); (30, 0); (60, 0); (90, 0); (120, 0)]%float) 3 =
  safeToChangeLane (libm := approx_libm)
    ([mkCar 3 40 2 10 0] ++ [mkCar 9 70 (-2) 30 0])%float 5 20
    (xs [(0, 0); (30, 0); (60, 0); (90, 0); (120, 0)]%float)
    (ys [(0, 0); (30, 0); (60, 0); (90, 0); (120, 0)]%float) 3.
Proof.
  apply (safeToChangeLane_equal_speed_not_dangerous (libm := approx_libm)
           _ _ _ _ _ _ _ _ 95 (-2))%float;
    solve [reflexivity | left; reflexivity].
Defined.

(** * getXY: the segment scan *)

Section ScanTheorems.

Local Open Scope float_scope.

(** In a strictly increasing vector the head is below every later entry. *)
Lemma strictly_increasing_head (v : vec) :
  forall a, strictly_increasing (a :: v) = true ->
            forall j b, nth_error v j = Some b -> (a <? b) = true.
Proof.
  induction v as [ | b0 v IH]; intros a H j b Hj.
  - destruct j; discriminate.
  - cbn [strictly_increasing] in H. apply andb_true_iff in H. destruct H as [Hab Hv].
    destruct j as [ | j]; cbn [nth_error] in Hj.
    + injection Hj as <-. exact Hab.
    + apply Double.ltb_trans with b0; [exact Hab | ].
      apply (IH b0 Hv j b Hj).
Qed.

Lemma strictly_increasing_tail (a : float) (v : vec) :
  strictly_increasing (a :: v) = true -> strictly_increasing v = true.
Proof.
  destruct v as [ | b v]; [reflexivity | ].
  cbn [strictly_increasing]. intros H. apply andb_true_iff in H. apply H.
Qed.

Lemma strictly_increasing_nth (v : vec) :
  strictly_increasing v = true ->
  forall i j a b, (i < j)%nat -> nth_error v i = Some a -> nth_error v j = Some b ->
                  (a <? b) = true.
Proof.
  induction v as [ | a0 v IH]; intros H i j a b Hij Hi Hj.
  - destruct i; discriminate.
  - destruct j as [ | j]; [lia | ]. cbn [nth_error] in Hj.
    destruct i as [ | i]; cbn [nth_error] in Hi.
    + injection Hi as <-. apply (strictly_increasing_head v a0 H j b Hj).
    + apply (IH (strictly_increasing_tail _ _ H) i j a b); [lia | assumption | assumption].
Qed.

Lemma strictly_increasing_at (v : vec) (i j : Z) (a b : float) :
  strictly_increasing v = true ->
  (i < j)%Z -> v.[i] = Val a -> v.[j] = Val b -> (a <? b) = true.
Proof.
  intros H Hij Hi Hj.
  pose proof (vec_at_val_range _ _ _ Hi) as Ri.
  pose proof (vec_at_val_range _ _ _ Hj) as Rj.
  destruct (vec_at_in_range v i Ri) as (a' & Ea & Na).
  destruct (vec_at_in_range v j Rj) as (b' & Eb & Nb).
  rewrite Ea in Hi. rewrite Eb in Hj. injection Hi as ->. injection Hj as ->.
  apply (strictly_increasing_nth v H (Z.to_nat i) (Z.to_nat j)); [lia | assumption | assumption].
Qed.

Variables (s : float) (maps_s : vec).

(** The scan stops before any index [last] whose entry is not below [s]:
    it needs no more than [last - prev_wp] tests, reads nothing out of range,
    and returns the index before the first entry that is not below [s]. *)
Lemma getXY_scan_stops (last : Z) (s_last : float) :
  maps_s.[last] = Val s_last -> (s_last <? s) = false ->
  forall (fuel : nat) (prev_wp : Z),
    (-1 <= prev_wp < last)%Z -> (last - prev_wp <= Z.of_nat fuel)%Z ->
    exists p,
      getXY_scan fuel s maps_s prev_wp = Val p /\
      (prev_wp <= p < last)%Z /\
      (forall j a, (prev_wp < j <= p)%Z -> maps_s.[j] = Val a -> (a <? s) = true) /\
      (exists a, maps_s.[(p + 1)%Z] = Val a /\ (a <? s) = false).
Proof.
  intros Hlast Hstop.
  pose proof (vec_at_val_range _ _ _ Hlast) as Rlast.
  induction fuel as [ | fuel IH]; intros prev_wp R F; [lia | ].
  cbn [getXY_scan].
  destruct (vec_at_in_range maps_s (prev_wp + 1) ltac:(lia)) as (a & Ea & _).
  rewrite Ea. cbn [bind].
  destruct (a <? s) eqn:Ha; cbn [andb].
  - assert (prev_wp + 1 <> last)%Z by (intros E; rewrite E in Ea; congruence).
    destruct (Z.ltb_spec prev_wp (size maps_s - 1)) as [_ | ?]; [ | lia].
    destruct (IH (prev_wp + 1)%Z ltac:(lia) ltac:(lia)) as (p & Hp & Rp & Hbelow & Hnext).
    exists p. split; [exact Hp | ]. split; [lia | ]. split; [ | exact Hnext].
    intros j b Hj Hb. destruct (Z.eq_dec j (prev_wp + 1)) as [-> | Hne].
    + rewrite Ea in Hb. injection Hb as <-. exact Ha.
    + apply (Hbelow j); [lia | exact Hb].
  - exists prev_wp. split; [reflexivity | ]. split; [lia | ]. split.
    + intros j b Hj. lia.
    + exists a. split; assumption.
Qed.

(** When every entry is below [s], the scan reads one past the end. *)
Lemma getXY_scan_overruns :
  (forall j a, maps_s.[j] = Val a -> (a <? s) = true) ->
  forall (fuel : nat) (prev_wp : Z),
    (-1 <= prev_wp < size maps_s)%Z -> (size maps_s - prev_wp <= Z.of_nat fuel)%Z ->
    getXY_scan fuel s maps_s prev_wp
    = Fault (OutOfRange (size maps_s) (size maps_s)).
Proof.
  intros Hall. induction fuel as [ | fuel IH]; intros prev_wp R F; [lia | ].
  cbn [getXY_scan].
  destruct (Z.eq_dec (prev_wp + 1) (size maps_s)) as [E | NE].
  - rewrite vec_at_out_of_range by lia. rewrite E. reflexivity.
  - destruct (vec_at_in_range maps_s (prev_wp + 1) ltac:(lia)) as (a & Ea & _).
    rewrite Ea. cbn [bind]. rewrite (Hall _ _ Ea). cbn [andb].
    destruct (Z.ltb_spec prev_wp (size maps_s - 1)) as [_ | ?]; [ | lia].
    apply IH; lia.
Qed.

(** The tests of the loop never run out: the fuel [size + 1] is enough. *)
Lemma getXY_prev_wp_terminates : getXY_prev_wp s maps_s <> Fault OutOfFuel.
Proof.
  unfold getXY_prev_wp.
  assert (G : forall (fuel : nat) (prev_wp : Z),
             (-1 <= prev_wp < size maps_s)%Z ->
             (size maps_s - prev_wp <= Z.of_nat fuel)%Z ->
             getXY_scan fuel s maps_s prev_wp <> Fault OutOfFuel).
  { induction fuel as [ | fuel IH]; intros prev_wp L F.
    - lia.
    - cbn [getXY_scan].
      destruct (Z_lt_ge_dec (prev_wp + 1) (size maps_s)) as [In | Out].
      + destruct (vec_at_in_range maps_s (prev_wp + 1) ltac:(lia)) as (a & -> & _).
        cbn [bind]. destruct (_ && _); [apply IH; lia | discriminate].
      + rewrite vec_at_out_of_range by lia. discriminate. }
  apply G; unfold size; lia.
Qed.

Variables (s_first s_last : float).

Hypothesis first_entry : maps_s.[0%Z] = Val s_first.
Hypothesis last_entry : maps_s.[(size maps_s - 1)%Z] = Val s_last.

(** Below or at the first entry (or with [s] NaN) the scan stays at [-1]. *)
Lemma getXY_prev_wp_before_first :
  (s_first <? s) = false -> getXY_prev_wp s maps_s = Val (-1)%Z.
Proof.
  intros H. unfold getXY_prev_wp. cbn [getXY_scan].
  change (-1 + 1)%Z with 0%Z. rewrite first_entry. cbn [bind].
  rewrite H. reflexivity.
Qed.

(** Within the range the scan returns an index [p] with
    [maps_s[p] < s] and not [maps_s[p+1] < s]. *)
Lemma getXY_prev_wp_in_range :
  (s_first <? s) = true -> (s <=? s_last) = true ->
  exists p,
    getXY_prev_wp s maps_s = Val p /\
    (0 <= p < size maps_s - 1)%Z /\
    (forall j a, (0 <= j <= p)%Z -> maps_s.[j] = Val a -> (a <? s) = true) /\
    (exists a, maps_s.[(p + 1)%Z] = Val a /\ (a <? s) = false).
Proof.
  intros Hf Hl.
  pose proof (vec_at_val_range _ _ _ first_entry) as R0.
  destruct (getXY_scan_stops (size maps_s - 1) s_last last_entry
              (Double.leb_not_ltb _ _ Hl) (S (length maps_s)) (-1)%Z)
    as (p & Hp & Rp & Hbelow & a & Ea & Ha).
  - lia.
  - unfold size. lia.
  - exists p. split; [exact Hp | ].
    assert (p <> -1)%Z.
    { intros ->. change (-1 + 1)%Z with 0%Z in Ea. rewrite first_entry in Ea.
      injection Ea as <-. congruence. }
    split; [lia | ]. split.
    + intros j b Hj. apply Hbelow. lia.
    + exists a. split; assumption.
Qed.

Hypothesis increasing : strictly_increasing maps_s = true.

(** Beyond the last entry of an increasing vector the scan overruns. *)
Lemma getXY_prev_wp_after_last :
  (s_first <? s) = true -> (s <=? s_last) = false ->
  getXY_prev_wp s maps_s = Fault (OutOfRange (size maps_s) (size maps_s)).
Proof.
  intros Hf Hl.
  pose proof (vec_at_val_range _ _ _ first_entry) as R0.
  assert (Hlast : (s_last <? s) = true).
  { apply Double.not_leb_ltb; [apply (Double.ltb_ordered_r _ _ Hf) | | exact Hl].
    destruct (Z.eq_dec (size maps_s - 1) 0) as [E | NE].
    - rewrite E, first_entry in last_entry. injection last_entry as <-.
      apply (Double.ltb_ordered_l _ _ Hf).
    - apply (Double.ltb_ordered_r s_first).
      apply (strictly_increasing_at maps_s 0 (size maps_s - 1)); auto. lia. }
  unfold getXY_prev_wp. apply getXY_scan_overruns.
  - intros j a Ha.
    pose proof (vec_at_val_range _ _ _ Ha) as Rj.
    destruct (Z.eq_dec j (size maps_s - 1)) as [-> | NE].
    + rewrite last_entry in Ha. injection Ha as <-. exact Hlast.
    + apply Double.ltb_trans with s_last; [ | exact Hlast].
      apply (strictly_increasing_at maps_s j (size maps_s - 1)); auto. lia.
  - lia.
  - unfold size. lia.
Qed.

(** C2, as the code has it.  On a strictly increasing arc-length vector and
    for [maps_s[0] < s <= maps_s[last]], the scan selects the last index
    whose arc length is strictly below [s]; when [s] equals [maps_s[k]], the
    selected index is [k - 1]. *)
Theorem getXY_prev_wp_last_below :
  (s_first <? s) = true -> (s <=? s_last) = true ->
  exists p,
    getXY_prev_wp s maps_s = Val p /\
    (0 <= p < size maps_s - 1)%Z /\
    (forall j a, maps_s.[j] = Val a -> ((a <? s) = true <-> (j <= p)%Z)) /\
    (forall k, maps_s.[k] = Val s -> p = (k - 1)%Z).
Proof.
  intros Hf Hl.
  destruct (getXY_prev_wp_in_range Hf Hl) as (p & Hp & Rp & Hbelow & a & Ea & Ha).
  assert (Hiff : forall j b, maps_s.[j] = Val b -> ((b <? s) = true <-> (j <= p)%Z)).
  { intros j b Hb. pose proof (vec_at_val_range _ _ _ Hb) as Rj. split.
    - intros Hlt. destruct (Z_le_gt_dec j p) as [L | G]; [exact L | exfalso].
      assert (Hsa : (s <=? a) = true).
      { apply Double.not_ltb_leb; [ | apply (Double.ltb_ordered_r _ _ Hf) | exact Ha].
        apply (Double.ltb_ordered_r s_first).
        apply (strictly_increasing_at maps_s 0 (p + 1)); auto. lia. }
      destruct (Z.eq_dec j (p + 1)) as [-> | NE].
      + rewrite Ea in Hb. injection Hb as <-. congruence.
      + assert (Hab : (a <? b) = true)
          by (apply (strictly_increasing_at maps_s (p + 1) j); auto; lia).
        pose proof (Double.leb_ltb_trans _ _ _ Hsa Hab) as Hsb.
        rewrite (Double.ltb_asym _ _ Hsb) in Hlt. discriminate.
    - intros L. apply (Hbelow j); [lia | exact Hb]. }
  exists p. split; [exact Hp | ]. split; [exact Rp | ]. split; [exact Hiff | ].
  intros k Hk. pose proof (vec_at_val_range _ _ _ Hk) as Rk.
  assert (Hkp : ~ (k <= p)%Z).
  { intros L. apply (Hiff k s Hk) in L. rewrite Double.ltb_irrefl in L. discriminate. }
  assert (k <> 0)%Z.
  { intros ->. rewrite first_entry in Hk. injection Hk as ->.
    rewrite Double.ltb_irrefl in Hf. discriminate. }
  destruct (vec_at_in_range maps_s (k - 1) ltac:(lia)) as (b & Eb & _).
  assert (Hbs : (b <? s) = true)
    by (apply (strictly_increasing_at maps_s (k - 1) k); auto; lia).
  apply (Hiff (k - 1)%Z b Eb) in Hbs. lia.
Qed.

End ScanTheorems.

Lemma getXY_prev_wp_last_below_witness :
  exists p,
    getXY_prev_wp 20 [0; 10; 20; 30]%float = Val p /\
    (0 <= p < size [0; 10; 20; 30]%float - 1)%Z /\
    (forall j a, [0; 10; 20; 30]%float.[j] = Val a ->
                 ((a <? 20)%float = true <-> (j <= p)%Z)) /\
    (forall k, [0; 10; 20; 30]%float.[k] = Val 20%float -> p = (k - 1)%Z).
Proof.
  apply (getXY_prev_wp_last_below 20 [0; 10; 20; 30]%float 0 30); reflexivity.
Defined.

(** C2 fails at a tie: with arc lengths [0, 10, 20] and [s = 10], index [1]
    has arc length [10 <= s], yet the scan selects index [0]. *)
Lemma getXY_prev_wp_tie_counterexample :
  getXY_prev_wp 10 [0; 10; 20]%float = Val 0%Z /\
  [0; 10; 20]%float.[1%Z] = Val 10%float /\
  (10 <=? 10)%float = true.
Proof. repeat split; reflexivity. Qed.

(** * getXY: reads stay in range exactly on [maps_s[0] < s <= maps_s[last]] *)

Section GetXYTheorems.

Context {libm : Libm}.

Local Open Scope float_scope.

(** C10.  For a polyline of at least two points with strictly increasing
    arc lengths: when [maps_s[0] < s <= maps_s[last]], every read of [getXY]
    (of [maps_s], [maps_x] and [maps_y]) is in range and a point is returned;
    when [s] is not above [maps_s[0]], the scan leaves [prev_wp] at [-1] and
    index [-1] is read; when [s] is above [maps_s[last]], the scan reads
    [maps_s] one past its end. *)
Theorem getXY_reads_in_range_iff
    (s d : float) (maps_s : vec) (pts : list (float * float))
    (s_first s_last : float) :
  length maps_s = length pts ->
  (2 <= length pts)%nat ->
  strictly_increasing maps_s = true ->
  maps_s.[0%Z] = Val s_first ->
  maps_s.[(size maps_s - 1)%Z] = Val s_last ->
  ((s_first <? s) = true -> (s <=? s_last) = true ->
   exists x y, getXY s d maps_s (xs pts) (ys pts) = Val (x, y)) /\
  ((s_first <? s) = false ->
   getXY_prev_wp s maps_s = Val (-1)%Z /\
   getXY s d maps_s (xs pts) (ys pts) = Fault (OutOfRange (-1) (size maps_s))) /\
  ((s_first <? s) = true -> (s <=? s_last) = false ->
   getXY s d maps_s (xs pts) (ys pts)
   = Fault (OutOfRange (size maps_s) (size maps_s))).
Proof.
  intros Hlen Hn Hinc Hfirst Hlast.
  assert (Hsize : size maps_s = Z.of_nat (length pts)) by (unfold size; lia).
  assert (Hmod : (size (xs pts) =? 0)%Z = false)
    by (rewrite size_xs; apply Z.eqb_neq; lia).
  split; [ | split].
  - intros Hf Hl.
    destruct (getXY_prev_wp_in_range s maps_s s_first s_last Hfirst Hlast Hf Hl)
      as (p & Hp & Rp & _).
    unfold getXY. rewrite Hp, Hmod. cbn [bind].
    rewrite size_xs, Z.mod_small by lia.
    destruct (pts_at pts (p + 1) ltac:(lia)) as (q2 & _ & -> & ->).
    destruct (pts_at pts p ltac:(lia)) as (q1 & _ & -> & ->).
    destruct (vec_at_in_range maps_s p ltac:(lia)) as (a & -> & _).
    cbn [bind]. eauto.
  - intros Hf.
    pose proof (getXY_prev_wp_before_first s maps_s s_first Hfirst Hf) as Hp.
    split; [exact Hp | ].
    unfold getXY. rewrite Hp, Hmod. cbn [bind].
    change (-1 + 1)%Z with 0%Z. rewrite size_xs, Z.mod_small by lia.
    destruct (pts_at pts 0 ltac:(lia)) as (q & _ & _ & ->). cbn [bind].
    rewrite vec_at_out_of_range by lia. cbn [bind].
    rewrite size_ys, Hsize. reflexivity.
  - intros Hf Hl. unfold getXY.
    rewrite (getXY_prev_wp_after_last s maps_s s_first s_last Hfirst Hlast Hinc Hf Hl).
    reflexivity.
Qed.

End GetXYTheorems.

Lemma getXY_reads_in_range_iff_witness :
  (exists x y,
     getXY (libm := approx_libm) 25 2 [0; 10; 20; 30]%float
       (xs [(0, 0); (10, 0); (20, 0); (30, 0)]%float)
       (ys [(0, 0); (10, 0); (20, 0); (30, 0)]%float) = Val (x, y)) /\
  getXY (libm := approx_libm) 0 2 [0; 10; 20; 30]%float
    (xs [(0, 0); (10, 0); (20, 0); (30, 0)]%float)
    (ys [(0, 0); (10, 0); (20, 0); (30, 0)]%float)
  = Fault (OutOfRange (-1) 4) /\
  getXY (libm := approx_libm) 31 2 [0; 10; 20; 30]%float
    (xs [(0, 0); (10, 0); (20, 0); (30, 0)]%float)
    (ys [(0, 0); (10, 0); (20, 0); (30, 0)]%float)
  = Fault (OutOfRange 4 4).
Proof.
  split; [ | split].
  - refine (proj1 (getXY_reads_in_range_iff (libm := approx_libm)
                     25 2 [0; 10; 20; 30]%float
                     [(0, 0); (10, 0); (20, 0); (30, 0)]%float 0 30 _ _ _ _ _) _ _);
      solve [reflexivity | cbn [length]; lia].
  - refine (proj2 (proj1 (proj2 (getXY_reads_in_range_iff (libm := approx_libm)
                     0 2 [0; 10; 20; 30]%float
                     [(0, 0); (10, 0); (20, 0); (30, 0)]%float 0 30 _ _ _ _ _)) _));
      solve [reflexivity | cbn [length]; lia].
  - refine (proj2 (proj2 (getXY_reads_in_range_iff (libm := approx_libm)
                     31 2 [0; 10; 20; 30]%float
                     [(0, 0); (10, 0); (20, 0); (30, 0)]%float 0 30 _ _ _ _ _)) _ _);
      solve [reflexivity | cbn [length]; lia].
Defined.

(** * The specification's test cases, evaluated

    The evaluations below run the code with [approx_libm]; they show the
    code's behaviour on the inputs the specification lists, not the accuracy
    of any math library. *)

Section Evaluations.

Import Road.

Local Open Scope float_scope.

(** Points on either side of a segment get lateral offsets of opposite sign. *)
Example getFrenet_opposite_sides :
  getFrenet 14 1 0 (xs east) (ys east) = Val (14, -1) /\
  getFrenet 14 (-1) 0 (xs east) (ys east) = Val (14, 1).
Proof. split; reflexivity. Qed.

(** On the eastbound line the conversions compose to the starting point. *)
Example round_trip_eastbound :
  getFrenet 14 1 0 (xs east) (ys east) = Val (14, -1) /\
  getXY 14 (-1) arc (xs east) (ys east) = Val (14, 1).
Proof. split; reflexivity. Qed.

(** On the same line travelled westbound [getFrenet] still signs the offset
    by the fixed centre [(1000, 2000)], while [getXY] offsets to the right
    of the heading: the point comes back mirrored. *)
Example round_trip_westbound :
  getFrenet 14 1 pi (xs west) (ys west) = Val (16, -1) /\
  (exists x y, getXY 16 (-1) arc (xs west) (ys west) = Val (x, y) /\
               (abs (x - 14) <? 0x1p-20) = true /\
               (abs (y - -1) <? 0x1p-20) = true).
Proof. split; [reflexivity | do 2 eexists; repeat split; reflexivity]. Qed.

(** An obstacle 3 m ahead at the ego speed 22.3 is within the margin. *)
Example safeToChangeLane_within_margin :
  safeToChangeLane [mkCar 1 8 (-2) 0x1.64ccccccccccdp+4 0] 5 0x1.64ccccccccccdp+4
    (xs east) (ys east) 3 = Val false.
Proof. reflexivity. Qed.

(** An obstacle 200 m ahead closing at 98 m/s: 196 m to cover, 2 s. *)
Example safeToChangeLane_ttc_2s :
  safeToChangeLane [mkCar 1 205 2 2 0] 5 100 (xs long) (ys long) 3 = Val false.
Proof. reflexivity. Qed.

(** The same obstacle closing at 19.6 m/s: 10 s, outside the horizon. *)
Example safeToChangeLane_ttc_10s :
  safeToChangeLane [mkCar 1 205 2 0x1.4666666666666p+3 0] 5 0x1.dcccccccccccdp+4
    (xs long) (ys long) 3 = Val true.
Proof. reflexivity. Qed.

End Evaluations.

(** * Further binary64 facts: signs and NaN *)

Section SpecFloatSigns.

Lemma binary_round_aux_negb s mx ex lx :
  binary_round_aux prec emax (negb s) mx ex lx
  = SFopp (binary_round_aux prec emax s mx ex lx).
Proof.
  unfold binary_round_aux.
  destruct (shr_fexp prec emax mx ex lx) as [mrs' e'].
  destruct (shr_fexp prec emax _ e' loc_Exact) as [mrs'' e''].
  destruct (shr_m mrs''); try reflexivity.
  destruct (Z.leb e'' (Z.sub emax prec)); reflexivity.
Qed.

Lemma binary_round_aux_nonneg mx ex lx :
  SFnonneg (binary_round_aux prec emax false mx ex lx) = true.
Proof.
  unfold binary_round_aux.
  destruct (shr_fexp prec emax mx ex lx) as [mrs' e'].
  destruct (shr_fexp prec emax _ e' loc_Exact) as [mrs'' e''].
  destruct (shr_m mrs''); try reflexivity.
  destruct (Z.leb e'' (Z.sub emax prec)); reflexivity.
Qed.

Lemma binary_round_negb s m e :
  binary_round prec emax (negb s) m e = SFopp (binary_round prec emax s m e).
Proof.
  unfold binary_round. destruct (shl_align m e _) as [mz ez].
  apply binary_round_aux_negb.
Qed.

Lemma binary_round_nonneg m e : SFnonneg (binary_round prec emax false m e) = true.
Proof.
  unfold binary_round. destruct (shl_align m e _) as [mz ez].
  apply binary_round_aux_nonneg.
Qed.

Lemma SFmul_self_nonneg x : SFnonneg (SF64mul x x) = true.
Proof.
  destruct x as [s|s| |s m e]; cbn [SF64mul SFmul];
    try reflexivity; try (destruct s; reflexivity).
  replace (xorb s s) with false by (destruct s; reflexivity).
  apply binary_round_aux_nonneg.
Qed.

Lemma SFadd_nonneg x y :
  SFnonneg x = true -> SFnonneg y = true -> SFnonneg (SF64add x y) = true.
Proof.
  destruct x as [sx|sx| |sx mx ex], y as [sy|sy| |sy my ey];
    try destruct sx; try destruct sy; try discriminate; try reflexivity.
  intros _ _. cbn [SF64add SFadd cond_Zopp Z.add binary_normalize].
  apply binary_round_nonneg.
Qed.

Lemma SFsqrt_nonneg x : SFnonneg x = true -> SFnonneg (SF64sqrt x) = true.
Proof.
  destruct x as [s|s| |s m e]; try destruct s; try discriminate; try reflexivity.
  intros _. cbn [SF64sqrt SFsqrt].
  destruct (SFsqrt_core_binary prec emax (Zpos m) e) as [[mz ez] lz].
  apply binary_round_aux_nonneg.
Qed.

Lemma SFdiv_nonneg x y :
  SFnonneg x = true -> SFnonneg y = true -> SFnonneg (SF64div x y) = true.
Proof.
  destruct x as [sx|sx| |sx mx ex], y as [sy|sy| |sy my ey];
    try destruct sx; try destruct sy; try discriminate; try reflexivity.
  intros _ _. cbn [SF64div SFdiv xorb].
  destruct (SFdiv_core_binary prec emax (Zpos mx) ex (Zpos my) ey) as [[mz ez] lz].
  apply binary_round_aux_nonneg.
Qed.

Lemma SFnonneg_cases x :
  SFnonneg x = true -> x = S754_nan \/ SFleb (S754_zero false) x = true.
Proof. destruct x as [s|s| |s m e]; try destruct s; try discriminate; auto. Qed.

(** Subtraction is antisymmetric, except that both differences of equal
    numbers are [+0]. *)
Lemma SFsub_anti a b :
  SF64sub b a = SFopp (SF64sub a b) \/
  (SF64sub a b = S754_zero false /\ SF64sub b a = S754_zero false).
Proof.
  destruct a as [sa|sa| |sa ma ea], b as [sb|sb| |sb mb eb];
    try (destruct sa; destruct sb; auto; fail);
    try (destruct sa; auto; fail); try (destruct sb; auto; fail); auto.
  cbn [SF64sub SFsub]. rewrite (Z.min_comm eb ea).
    set (ez := Z.min ea eb).
    set (A := cond_Zopp sa (Zpos (fst (shl_align ma ea ez)))).
    set (B := cond_Zopp sb (Zpos (fst (shl_align mb eb ez)))).
    replace (Z.sub B A) with (Z.opp (Z.sub A B)) by lia.
    destruct (Z.sub A B) as [ | p | p]; cbn [Z.opp binary_normalize].
  - right. split; reflexivity.
  - left. apply (binary_round_negb false).
  - left. rewrite (binary_round_negb false).
    destruct (binary_round prec emax false p ez) as [s|s| |s m e];
      cbn [SFopp]; rewrite ?negb_involutive; reflexivity.
Qed.

Lemma SFmul_opp_opp u : SF64mul (SFopp u) (SFopp u) = SF64mul u u.
Proof. destruct u as [s|s| |s m e]; try destruct s; reflexivity. Qed.

Lemma SFmul_zero_or_nan_r u z :
  (z = S754_nan \/ exists s, z = S754_zero s) ->
  SF64mul u z = S754_nan \/ exists s, SF64mul u z = S754_zero s.
Proof.
  intros [-> | [s ->]]; destruct u as [su|su| |su mu eu]; cbn [SF64mul SFmul]; eauto.
Qed.

Lemma SFadd_zero_or_nan a b :
  (a = S754_nan \/ exists s, a = S754_zero s) ->
  (b = S754_nan \/ exists s, b = S754_zero s) ->
  SF64add a b = S754_nan \/ exists s, SF64add a b = S754_zero s.
Proof.
  intros [-> | [sa ->]] [-> | [sb ->]]; cbn [SF64add SFadd]; eauto.
  destruct sa, sb; eauto.
Qed.

Lemma SFdiv_zero_or_nan a b :
  (a = S754_nan \/ exists s, a = S754_zero s) ->
  (b = S754_nan \/ exists s, b = S754_zero s) ->
  SF64div a b = S754_nan.
Proof.
  intros [-> | [sa ->]] [-> | [sb ->]]; reflexivity.
Qed.

End SpecFloatSigns.

Module Sign.

Local Open Scope float_scope.

Lemma nan_of_spec x : Prim2SF x = S754_nan -> x = nan.
Proof. intros H. rewrite <- (SF2Prim_Prim2SF x), H. reflexivity. Qed.

Lemma not_eqb_self x : (x =? x) = false -> x = nan.
Proof.
  rewrite eqb_spec. intros H. apply nan_of_spec.
  destruct (Prim2SF x) as [s|s| |s m e]; try reflexivity;
    try (destruct s; discriminate).
  exfalso. revert H. unfold SFeqb, SFcompare.
  rewrite Z.compare_refl.
  change (PosDef.Pos.compare_cont Eq m m) with (Pos.compare m m).
  rewrite Pos.compare_refl. destruct s; discriminate.
Qed.

Lemma sub_nan_l x : nan - x = nan.
Proof.
  apply Prim2SF_inj. rewrite sub_spec. reflexivity.
Qed.

Lemma sub_nan_r x : x - nan = nan.
Proof.
  apply Prim2SF_inj. rewrite sub_spec.
  change (Prim2SF nan) with S754_nan. destruct (Prim2SF x); reflexivity.
Qed.

Lemma add_nan_l x : nan + x = nan.
Proof. apply Prim2SF_inj. rewrite add_spec. reflexivity. Qed.

Lemma add_nan_r x : x + nan = nan.
Proof.
  apply Prim2SF_inj. rewrite add_spec.
  change (Prim2SF nan) with S754_nan. destruct (Prim2SF x); reflexivity.
Qed.

Lemma mul_nan_l x : nan * x = nan.
Proof. apply Prim2SF_inj. rewrite mul_spec. reflexivity. Qed.

Lemma mul_nan_r x : x * nan = nan.
Proof.
  apply Prim2SF_inj. rewrite mul_spec.
  change (Prim2SF nan) with S754_nan. destruct (Prim2SF x); reflexivity.
Qed.

Lemma div_nan_l x : nan / x = nan.
Proof. apply Prim2SF_inj. rewrite div_spec. reflexivity. Qed.

Lemma leb_nan_r x : (x <=? nan) = false.
Proof.
  rewrite leb_spec. change (Prim2SF nan) with S754_nan.
  destruct (Prim2SF x); reflexivity.
Qed.

Lemma leb_nan_l x : (nan <=? x) = false.
Proof. rewrite leb_spec. reflexivity. Qed.

Lemma ltb_nan_r x : (x <? nan) = false.
Proof.
  rewrite ltb_spec. change (Prim2SF nan) with S754_nan.
  destruct (Prim2SF x); reflexivity.
Qed.

Lemma ltb_nan_l x : (nan <? x) = false.
Proof. rewrite ltb_spec. reflexivity. Qed.

(** Squares, and sums, roots and quotients of numbers with a clear sign,
    have a clear sign (or are NaN). *)
Lemma mul_self x : sign_clear (x * x) = true.
Proof. unfold sign_clear. rewrite mul_spec. apply SFmul_self_nonneg. Qed.

Lemma add x y :
  sign_clear x = true -> sign_clear y = true -> sign_clear (x + y) = true.
Proof. unfold sign_clear. rewrite add_spec. apply SFadd_nonneg. Qed.

Lemma sqrt x : sign_clear x = true -> sign_clear (PrimFloat.sqrt x) = true.
Proof. unfold sign_clear. rewrite sqrt_spec. apply SFsqrt_nonneg. Qed.

Lemma div x y :
  sign_clear x = true -> sign_clear y = true -> sign_clear (x / y) = true.
Proof. unfold sign_clear. rewrite div_spec. apply SFdiv_nonneg. Qed.

Lemma of_size n : (0 <= n < 2 ^ 63)%Z -> sign_clear (double_of_size n) = true.
Proof.
  intros R. unfold sign_clear, double_of_size.
  rewrite of_uint63_spec, Uint63.of_Z_spec.
  rewrite Z.mod_small by (change Uint63.wB with (2 ^ 63)%Z; lia).
  destruct n as [ | m | m]; [reflexivity | | lia].
  cbn [binary_normalize]. apply binary_round_nonneg.
Qed.

(** A number with a clear sign is NaN or at least zero. *)
Lemma cases x : sign_clear x = true -> x = nan \/ (0 <=? x) = true.
Proof.
  unfold sign_clear. intros H.
  destruct (SFnonneg_cases _ H) as [E | E].
  - left. apply nan_of_spec, E.
  - right. rewrite leb_spec. exact E.
Qed.

Lemma not_negative x : sign_clear x = true -> (x <? 0) = false.
Proof.
  intros H. destruct (cases x H) as [-> | L]; [reflexivity | ].
  apply Double.leb_not_ltb, L.
Qed.

(** The two differences of a pair have the same square. *)
Lemma sub_square_sym a b : (a - b) * (a - b) = (b - a) * (b - a).
Proof.
  apply Prim2SF_inj. rewrite !mul_spec, !sub_spec.
  destruct (SFsub_anti (Prim2SF a) (Prim2SF b)) as [E | [E1 E2]].
  - rewrite E. symmetry. apply SFmul_opp_opp.
  - rewrite E1, E2. reflexivity.
Qed.

Lemma zero_or_nan_spec z :
  zero_or_nan z <-> (Prim2SF z = S754_nan \/ exists s, Prim2SF z = S754_zero s).
Proof.
  unfold zero_or_nan. split.
  - intros [H | ->]; [right | left; reflexivity].
    rewrite eqb_spec in H. apply SFeqb_zero, H.
  - intros [H | [s H]]; [right; apply nan_of_spec, H | left].
    rewrite eqb_spec, H. destruct s; reflexivity.
Qed.

Lemma sub_self_degenerate a : zero_or_nan (a - a).
Proof.
  destruct (a =? a) eqn:E.
  - apply Double.sub_eqb, E.
  - right. rewrite (not_eqb_self _ E). apply sub_nan_l.
Qed.

Lemma mul_degenerate_r u z : zero_or_nan z -> zero_or_nan (u * z).
Proof.
  rewrite !zero_or_nan_spec, mul_spec. apply SFmul_zero_or_nan_r.
Qed.

Lemma add_degenerate a b : zero_or_nan a -> zero_or_nan b -> zero_or_nan (a + b).
Proof.
  rewrite !zero_or_nan_spec, add_spec. apply SFadd_zero_or_nan.
Qed.

Lemma div_degenerate a b : zero_or_nan a -> zero_or_nan b -> a / b = nan.
Proof.
  rewrite !zero_or_nan_spec. intros Ha Hb.
  apply nan_of_spec. rewrite div_spec. apply SFdiv_zero_or_nan; assumption.
Qed.

End Sign.

(** * Further properties: distances *)

Section DistanceProperties.

Local Open Scope float_scope.

Lemma distance_sign_clear (x1 y1 x2 y2 : float) :
  sign_clear (distance x1 y1 x2 y2) = true.
Proof.
  unfold distance. apply Sign.sqrt, Sign.add; apply Sign.mul_self.
Qed.

Lemma distance_to_nan (a b : float) : distance a b nan nan = nan.
Proof.
  unfold distance. rewrite !Sign.sub_nan_l, !Sign.mul_nan_l, Sign.add_nan_l.
  reflexivity.
Qed.

(** X1.  [distance] is symmetric in its two points, bit for bit. *)
Theorem distance_symmetric (x1 y1 x2 y2 : float) :
  distance x1 y1 x2 y2 = distance x2 y2 x1 y1.
Proof.
  unfold distance.
  rewrite (Sign.sub_square_sym x2 x1), (Sign.sub_square_sym y2 y1). reflexivity.
Qed.

(** X2.  [distance] and [getAbsSpeed] never return a negative number (nor
    [-0]): the result is NaN or at least zero. *)
Theorem distance_never_negative (x1 y1 x2 y2 vx vy : float) :
  (distance x1 y1 x2 y2 = nan \/ (0 <=? distance x1 y1 x2 y2) = true) /\
  (getAbsSpeed vx vy = nan \/ (0 <=? getAbsSpeed vx vy) = true).
Proof.
  split; apply Sign.cases.
  - apply distance_sign_clear.
  - unfold getAbsSpeed. apply Sign.sqrt, Sign.add; apply Sign.mul_self.
Qed.

End DistanceProperties.

(** * Further properties: waypoint search *)

Section WaypointProperties.

Context {libm : Libm}.

Local Open Scope float_scope.

(** With [maps_y] shorter than [maps_x] the scan runs off [maps_y]. *)
Lemma ClosestWaypoint_loop_short_ys (x y : float) (maps_x maps_y : vec) (todo : nat) :
  forall (i : nat) (cl : float) (cw : Z),
    (i <= length maps_y)%nat -> (length maps_y < i + todo)%nat ->
    (i + todo <= length maps_x)%nat ->
    ClosestWaypoint_loop todo (Z.of_nat i) x y maps_x maps_y cl cw
    = Fault (OutOfRange (size maps_y) (size maps_y)).
Proof.
  induction todo as [ | todo IH]; intros i cl cw Li Lt Lx; [lia | ].
  cbn [ClosestWaypoint_loop].
  destruct (vec_at_in_range maps_x (Z.of_nat i) ltac:(unfold size; lia)) as (a & -> & _).
  cbn [bind].
  destruct (Nat.eq_dec i (length maps_y)) as [-> | NE].
  - rewrite vec_at_out_of_range by (unfold size; lia). reflexivity.
  - destruct (vec_at_in_range maps_y (Z.of_nat i) ltac:(unfold size; lia)) as (b & -> & _).
    cbn [bind]. replace (Z.of_nat i + 1)%Z with (Z.of_nat (S i)) by lia.
    destruct (_ <? cl); apply IH; lia.
Qed.

(** X3.  [ClosestWaypoint] runs over the length of [maps_x]: when [maps_y]
    is shorter, it reads [maps_y] one past its end. *)
Theorem ClosestWaypoint_short_maps_y (x y : float) (maps_x maps_y : vec) :
  (length maps_y < length maps_x)%nat ->
  ClosestWaypoint x y maps_x maps_y = Fault (OutOfRange (size maps_y) (size maps_y)).
Proof.
  intros H. unfold ClosestWaypoint.
  apply (ClosestWaypoint_loop_short_ys x y maps_x maps_y (length maps_x) 0); lia.
Qed.

(** X4.  On every polyline given as points [ClosestWaypoint] returns a
    value; the index is [0] for the empty polyline and a valid index
    otherwise. *)
Theorem ClosestWaypoint_index_valid (x y : float) (pts : list (float * float)) :
  exists k, ClosestWaypoint x y (xs pts) (ys pts) = Val k /\
            (pts = [] -> k = 0%Z) /\
            (pts <> [] -> (0 <= k < Z.of_nat (length pts))%Z).
Proof.
  destruct pts as [ | p pts].
  - exists 0%Z. repeat split; congruence.
  - destruct (ClosestWaypoint_in_range x y (p :: pts) ltac:(discriminate)) as (k & Hk & R).
    exists k. repeat split; [exact Hk | discriminate | | ]; lia.
Qed.

(** X5.  [NextWaypoint] returns the closest waypoint or its successor,
    wrapping to [0] after the last one; the result is a valid index. *)
Theorem NextWaypoint_closest_or_successor
    (x y theta : float) (maps_x maps_y : vec) (k : Z) :
  NextWaypoint x y theta maps_x maps_y = Val k ->
  exists c, ClosestWaypoint x y maps_x maps_y = Val c /\
            (k = c \/ k = ((c + 1) mod size maps_x)%Z) /\
            (0 <= k < size maps_x)%Z.
Proof.
  unfold NextWaypoint.
  destruct (ClosestWaypoint x y maps_x maps_y) as [c | f]; [ | discriminate].
  cbn [bind].
  destruct (maps_x.[c]) as [mx | f] eqn:Ex; [ | discriminate].
  destruct (maps_y.[c]) as [my | f] eqn:Ey; [ | discriminate].
  cbn [bind]. pose proof (vec_at_val_range _ _ _ Ex) as R.
  destruct (pi / 2 <? _).
  - destruct (Z.eqb_spec (c + 1) (size maps_x)) as [E | NE]; intros H;
      injection H as <-; exists c; (split; [reflexivity | ]).
    + rewrite E, Z.mod_same by lia. split; [right; reflexivity | lia].
    + rewrite Z.mod_small by lia. split; [right; reflexivity | lia].
  - intros H. injection H as <-. exists c. split; [reflexivity | ].
    split; [left; reflexivity | exact R].
Qed.

(** X6.  A NaN heading never advances the waypoint: on a non-empty polyline
    [NextWaypoint] is then [ClosestWaypoint], whatever [atan2] returns. *)
Theorem NextWaypoint_nan_heading (x y : float) (pts : list (float * float)) :
  pts <> [] ->
  NextWaypoint x y nan (xs pts) (ys pts) = ClosestWaypoint x y (xs pts) (ys pts).
Proof.
  intros NE. unfold NextWaypoint.
  destruct (ClosestWaypoint_in_range x y pts NE) as (k & -> & R). cbn [bind].
  destruct (pts_at pts k R) as (p & _ & -> & ->). cbn [bind].
  rewrite Sign.sub_nan_l. change (abs nan) with nan.
  unfold std_min. rewrite Sign.ltb_nan_l, Sign.sub_nan_r, Sign.ltb_nan_r.
  reflexivity.
Qed.

End WaypointProperties.

Lemma ClosestWaypoint_short_maps_y_witness :
  ClosestWaypoint 1 1 [0; 10; 20]%float [0; 0]%float = Fault (OutOfRange 2 2).
Proof.
  apply (ClosestWaypoint_short_maps_y 1 1 [0; 10; 20]%float [0; 0]%float).
  cbn [length]. lia.
Defined.

Lemma NextWaypoint_closest_or_successor_witness :
  exists c, ClosestWaypoint 12 1 (xs Road.east) (ys Road.east) = Val c /\
            (2%Z = c \/ 2%Z = ((c + 1) mod size (xs Road.east))%Z) /\
            (0 <= 2 < size (xs Road.east))%Z.
Proof.
  apply (NextWaypoint_closest_or_successor (libm := approx_libm) 12 1 0
           (xs Road.east) (ys Road.east) 2).
  reflexivity.
Defined.

Lemma NextWaypoint_nan_heading_witness :
  NextWaypoint (libm := approx_libm) 12 1 nan (xs Road.east) (ys Road.east)
  = ClosestWaypoint 12 1 (xs Road.east) (ys Road.east).
Proof.
  apply (NextWaypoint_nan_heading (libm := approx_libm) 12 1 Road.east).
  discriminate.
Defined.

(** * Further properties: getFrenet *)

Section FrenetProperties.

Context {libm : Libm}.

Local Open Scope float_scope.

Lemma getFrenet_sum_sign_clear (maps_x maps_y : vec) (todo : nat) :
  forall (i : Z) (acc r : float),
    sign_clear acc = true ->
    getFrenet_sum todo i maps_x maps_y acc = Val r -> sign_clear r = true.
Proof.
  induction todo as [ | todo IH]; intros i acc r Hacc; cbn [getFrenet_sum].
  - intros H. injection H as <-. exact Hacc.
  - destruct (maps_x.[i]) as [x1 | f]; [ | discriminate].
    destruct (maps_y.[i]) as [y1 | f]; [ | discriminate].
    destruct (maps_x.[(i + 1)%Z]) as [x2 | f]; [ | discriminate].
    destruct (maps_y.[(i + 1)%Z]) as [y2 | f]; [ | discriminate].
    cbn [bind]. apply IH. apply Sign.add; [exact Hacc | apply distance_sign_clear].
Qed.

(** X7.  [getFrenet] reads the polyline in range exactly when it is not
    empty: it returns coordinates on every non-empty polyline, and on the
    empty one it reads [maps_x[0]]. *)
Theorem getFrenet_value_iff_nonempty
    (x y theta : float) (pts : list (float * float)) :
  (pts <> [] -> exists s d, getFrenet x y theta (xs pts) (ys pts) = Val (s, d)) /\
  (pts = [] -> getFrenet x y theta (xs pts) (ys pts) = Fault (OutOfRange 0 0)).
Proof.
  split.
  - apply getFrenet_in_range.
  - intros ->. reflexivity.
Qed.

(** X8.  The longitudinal coordinate returned by [getFrenet] is never
    negative: it is NaN or at least zero, also when the point projects
    behind the start of its segment. *)
Theorem getFrenet_s_never_negative
    (x y theta : float) (maps_x maps_y : vec) (s d : float) :
  getFrenet x y theta maps_x maps_y = Val (s, d) ->
  s = nan \/ (0 <=? s) = true.
Proof.
  unfold getFrenet.
  destruct (NextWaypoint x y theta maps_x maps_y) as [next_wp | f]; [ | discriminate].
  cbn [bind].
  destruct (maps_x.[next_wp]) as [nx | f]; [ | discriminate].
  destruct (maps_x.[_]) as [px | f]; [ | discriminate].
  destruct (maps_y.[next_wp]) as [ny | f]; [ | discriminate].
  destruct (maps_y.[_]) as [py | f]; [ | discriminate].
  cbn [bind].
  destruct (getFrenet_sum _ 0 maps_x maps_y 0) as [fs | f] eqn:E; [ | discriminate].
  cbn [bind]. intros H. injection H as <- _.
  apply Sign.cases, Sign.add; [ | apply distance_sign_clear].
  eapply (getFrenet_sum_sign_clear maps_x maps_y); [ | exact E]. reflexivity.
Qed.

(** X9.  On a polyline of a single point the segment has length zero, the
    projection divides zero by zero, and [getFrenet] returns NaN for both
    coordinates, for every query point and heading. *)
Theorem getFrenet_single_point (x y theta px py : float) :
  getFrenet x y theta [px] [py] = Val (nan, nan).
Proof.
  assert (C : ClosestWaypoint x y [px] [py] = Val 0%Z).
  { unfold ClosestWaypoint. cbn [length ClosestWaypoint_loop].
    change ([px].[0%Z]) with (Val px). change ([py].[0%Z]) with (Val py).
    cbn [bind]. destruct (_ <? 100000); reflexivity. }
  assert (N : NextWaypoint x y theta [px] [py] = Val 0%Z).
  { unfold NextWaypoint. rewrite C. cbn [bind].
    change ([px].[0%Z]) with (Val px). change ([py].[0%Z]) with (Val py).
    cbn [bind]. destruct (pi / 2 <? _); reflexivity. }
  unfold getFrenet. rewrite N. cbn [bind].
  change (if (0 =? 0)%Z then (size [px] - 1)%Z else (0 - 1)%Z) with 0%Z.
  change ([px].[0%Z]) with (Val px). change ([py].[0%Z]) with (Val py).
  cbn [bind Z.to_nat getFrenet_sum].
  assert (P : (((x - px) * (px - px) + (y - py) * (py - py))
               / ((px - px) * (px - px) + (py - py) * (py - py))) = nan).
  { apply Sign.div_degenerate; apply Sign.add_degenerate;
      apply Sign.mul_degenerate_r; apply Sign.sub_self_degenerate. }
  rewrite P, !Sign.mul_nan_l, !distance_to_nan, Sign.leb_nan_r, Sign.add_nan_r.
  reflexivity.
Qed.

End FrenetProperties.

Lemma getFrenet_s_never_negative_witness :
  (14 = nan \/ (0 <=? 14) = true)%float.
Proof.
  apply (getFrenet_s_never_negative (libm := approx_libm) 14 1 0
           (xs Road.east) (ys Road.east) 14 (-1)).
  reflexivity.
Defined.

(** * Further properties: the scan of getXY *)

Section ScanProperties.

Context {libm : Libm}.

Local Open Scope float_scope.

Lemma getXY_scan_post (s : float) (maps_s : vec) (fuel : nat) :
  forall prev_wp p,
    getXY_scan fuel s maps_s prev_wp = Val p ->
    (prev_wp <= p)%Z /\
    (forall j a, (prev_wp < j <= p)%Z -> maps_s.[j] = Val a -> (a <? s) = true) /\
    (exists a, maps_s.[(p + 1)%Z] = Val a /\ (a <? s) = false).
Proof.
  induction fuel as [ | fuel IH]; intros prev_wp p; cbn [getXY_scan]; [discriminate | ].
  destruct (maps_s.[(prev_wp + 1)%Z]) as [a | f] eqn:Ea; [ | discriminate].
  cbn [bind].
  destruct (a <? s) eqn:Ha; cbn [andb].
  - destruct (Z.ltb_spec prev_wp (size maps_s - 1)) as [Lt | Ge].
    + intros H. destruct (IH _ _ H) as (L & Hbelow & Hnext).
      split; [lia | ]. split; [ | exact Hnext].
      intros j b Hj Hb. destruct (Z.eq_dec j (prev_wp + 1)) as [-> | NE].
      * rewrite Ea in Hb. injection Hb as <-. exact Ha.
      * apply (Hbelow j); [lia | exact Hb].
    + pose proof (vec_at_val_range _ _ _ Ea). lia.
  - intros H. injection H as <-. split; [lia | ]. split.
    + intros j b Hj. lia.
    + exists a. split; assumption.
Qed.

(** X10.  Whenever the scan of [getXY] ends, [prev_wp] is between [-1] and
    [size - 2], every arc length up to [prev_wp] is below [s], and the next
    one is not: the scan stops at the first arc length that is not below
    [s], whatever the order of [maps_s]. *)
Theorem getXY_prev_wp_first_not_below (s : float) (maps_s : vec) (p : Z) :
  getXY_prev_wp s maps_s = Val p ->
  (-1 <= p < size maps_s - 1)%Z /\
  (forall j a, (0 <= j <= p)%Z -> maps_s.[j] = Val a -> (a <? s) = true) /\
  (exists a, maps_s.[(p + 1)%Z] = Val a /\ (a <? s) = false).
Proof.
  intros H. destruct (getXY_scan_post s maps_s _ _ _ H) as (L & Hbelow & a & Ea & Ha).
  pose proof (vec_at_val_range _ _ _ Ea) as R.
  split; [lia | ]. split.
  - intros j b Hj. apply Hbelow. lia.
  - exists a. split; assumption.
Qed.

(** X11.  When [getXY] returns a point, the segment it used runs from
    [prev_wp >= 0] to [prev_wp + 1 <= size - 1]: with [maps_x] as long as
    [maps_s] the modulo never wraps, so the closing segment from the last
    waypoint back to the first is never used. *)
Theorem getXY_never_wraps (s d : float) (maps_s maps_x maps_y : vec) (xy : float * float) :
  getXY s d maps_s maps_x maps_y = Val xy ->
  exists p, getXY_prev_wp s maps_s = Val p /\
            (0 <= p < size maps_s - 1)%Z /\
            (size maps_x = size maps_s -> ((p + 1) mod size maps_x = p + 1)%Z).
Proof.
  unfold getXY.
  destruct (getXY_prev_wp s maps_s) as [p | f] eqn:Hp; [ | discriminate].
  cbn [bind].
  destruct (size maps_x =? 0)%Z; [discriminate | ]. cbn [bind].
  destruct (maps_y.[_]) as [y2 | f]; [ | discriminate]. cbn [bind].
  destruct (maps_y.[p]) as [y1 | f] eqn:E1; [ | discriminate].
  intros _. pose proof (vec_at_val_range _ _ _ E1) as R1.
  destruct (getXY_scan_post s maps_s _ _ _ Hp) as (_ & _ & a & Ea & _).
  pose proof (vec_at_val_range _ _ _ Ea) as R.
  exists p. split; [reflexivity | ]. split; [lia | ].
  intros E. apply Z.mod_small. lia.
Qed.

(** X12.  The selected segment is monotone in [s]: if both scans end and
    [s <= s'], then [prev_wp] for [s] is at most [prev_wp] for [s']. *)
Theorem getXY_prev_wp_monotone (s s' : float) (maps_s : vec) (p p' : Z) :
  getXY_prev_wp s maps_s = Val p ->
  getXY_prev_wp s' maps_s = Val p' ->
  (s <=? s') = true ->
  (p <= p')%Z.
Proof.
  intros H H' L.
  destruct (getXY_scan_post s maps_s _ _ _ H) as (Lp & Hbelow & _).
  destruct (getXY_scan_post s' maps_s _ _ _ H') as (Lp' & _ & a & Ea & Ha).
  destruct (Z_le_gt_dec p p') as [Le | Gt]; [exact Le | exfalso].
  assert (Hs : (a <? s) = true) by (apply (Hbelow (p' + 1)%Z); [lia | exact Ea]).
  rewrite (Double.ltb_leb_trans _ _ _ Hs L) in Ha. discriminate.
Qed.

Lemma getXY_scan_more_fuel (s : float) (maps_s : vec) (fuel : nat) :
  forall (prev_wp : Z) (extra : nat),
    getXY_scan fuel s maps_s prev_wp <> Fault OutOfFuel ->
    getXY_scan (fuel + extra) s maps_s prev_wp = getXY_scan fuel s maps_s prev_wp.
Proof.
  induction fuel as [ | fuel IH]; intros prev_wp extra; cbn [getXY_scan Nat.add].
  - congruence.
  - destruct (maps_s.[(prev_wp + 1)%Z]) as [a | f]; cbn [bind]; [ | reflexivity].
    destruct (_ && _); [apply IH | reflexivity].
Qed.

(** X23.  The [while] loop of [getXY] terminates: [size + 1] tests always
    decide it, either with a value of [prev_wp] or with a read out of range,
    and allowing more tests changes nothing. *)
Theorem getXY_scan_fuel_sufficient (s : float) (maps_s : vec) (extra : nat) :
  getXY_prev_wp s maps_s <> Fault OutOfFuel /\
  getXY_scan (S (length maps_s) + extra) s maps_s (-1) = getXY_prev_wp s maps_s.
Proof.
  split; [apply getXY_prev_wp_terminates | ].
  unfold getXY_prev_wp. apply getXY_scan_more_fuel.
  apply getXY_prev_wp_terminates.
Qed.

End ScanProperties.

Lemma getXY_prev_wp_first_not_below_witness :
  (-1 <= 1 < size Road.arc - 1)%Z /\
  (forall j a, (0 <= j <= 1)%Z -> Road.arc.[j] = Val a -> (a <? 15)%float = true) /\
  (exists a, Road.arc.[(1 + 1)%Z] = Val a /\ (a <? 15)%float = false).
Proof.
  apply (getXY_prev_wp_first_not_below 15 Road.arc 1). reflexivity.
Defined.

Lemma getXY_never_wraps_witness :
  exists p, getXY_prev_wp 15 Road.arc = Val p /\
            (0 <= p < size Road.arc - 1)%Z /\
            (size (xs Road.east) = size Road.arc ->
             ((p + 1) mod size (xs Road.east) = p + 1)%Z).
Proof.
  apply (getXY_never_wraps (libm := approx_libm) 15 2 Road.arc
           (xs Road.east) (ys Road.east) (15, -2)%float).
  reflexivity.
Defined.

Lemma getXY_prev_wp_monotone_witness : (0 <= 2)%Z.
Proof.
  apply (getXY_prev_wp_monotone 5 25 Road.arc 0 2); reflexivity.
Defined.

(** * Further properties: lane summaries *)

Section LaneProperties.

Local Open Scope float_scope.

Lemma getLaneInfo_sum_sign_clear (cars : list Car) :
  forall acc, sign_clear acc = true -> sign_clear (getLaneInfo_sum cars acc) = true.
Proof.
  induction cars as [ | c cars IH]; intros acc H; cbn [getLaneInfo_sum].
  - exact H.
  - apply IH, Sign.add; [exact H | ].
    unfold getAbsSpeed. apply Sign.sqrt, Sign.add; apply Sign.mul_self.
Qed.

Lemma double_of_size_sign_clear (n : Z) : sign_clear (double_of_size n) = true.
Proof.
  unfold sign_clear, double_of_size. rewrite of_uint63_spec, Uint63.of_Z_spec.
  pose proof (Z.mod_pos_bound n Uint63.wB ltac:(reflexivity)) as B.
  destruct (n mod Uint63.wB)%Z as [ | m | m]; [reflexivity | | lia].
  cbn [binary_normalize]. apply binary_round_nonneg.
Qed.

(** X13.  [getLaneInfo] always returns exactly two entries, and the average
    speed it reports is never negative (it is NaN or at least zero). *)
Theorem getLaneInfo_shape (cars : list Car) :
  exists avg count : float,
    getLaneInfo cars = [avg; count] /\
    (avg = nan \/ (0 <=? avg) = true).
Proof.
  unfold getLaneInfo.
  destruct (0 <? double_of_size (Z.of_nat (length cars))).
  - do 2 eexists. split; [reflexivity | ].
    apply Sign.cases, Sign.div.
    + apply getLaneInfo_sum_sign_clear. reflexivity.
    + apply double_of_size_sign_clear.
  - exists 25, 0. split; [reflexivity | right; reflexivity].
Qed.

(** X14.  [cmpLaneConditions] returns a verdict exactly when both vectors
    have at least two entries; a shorter vector is read out of range. *)
Theorem cmpLaneConditions_value_iff (left_lane right_lane : vec) :
  is_val (cmpLaneConditions left_lane right_lane) = true <->
  (2 <= length left_lane)%nat /\ (2 <= length right_lane)%nat.
Proof.
  destruct left_lane as [ | l0 [ | l1 left_lane]];
    destruct right_lane as [ | r0 [ | r1 right_lane]];
    cbv [cmpLaneConditions bind vec_at nth_error Z.ltb Z.compare Z.to_nat
         Pos.to_nat Pos.iter_op Nat.add is_val];
    cbn [length];
    try (split; [discriminate | lia]).
  destruct (0 <=? _); split; try reflexivity; lia.
Qed.

Lemma getLaneInfo_two_entries (cars : list Car) :
  exists avg count : float, getLaneInfo cars = [avg; count].
Proof.
  unfold getLaneInfo. destruct (0 <? _); do 2 eexists; reflexivity.
Qed.

(** X15.  Two summaries produced by [getLaneInfo] can always be compared:
    [cmpLaneConditions] reads nothing out of range on them. *)
Theorem cmpLaneConditions_of_getLaneInfo (left_cars right_cars : list Car) :
  exists prefer_left : bool,
    cmpLaneConditions (getLaneInfo left_cars) (getLaneInfo right_cars)
    = Val prefer_left.
Proof.
  destruct (getLaneInfo_two_entries left_cars) as (la & lc & ->).
  destruct (getLaneInfo_two_entries right_cars) as (ra & rc & ->).
  cbv [cmpLaneConditions bind vec_at nth_error Z.ltb Z.compare Z.to_nat
       Pos.to_nat Pos.iter_op Nat.add].
  destruct (0 <=? _); eauto.
Qed.

(** X16.  A NaN in either summary makes [cmpLaneConditions] prefer the right
    lane: the score is NaN and the test [score >= 0] fails. *)
Theorem cmpLaneConditions_nan_prefers_right (l0 l1 r0 r1 : float) :
  l0 = nan \/ l1 = nan \/ r0 = nan \/ r1 = nan ->
  cmpLaneConditions [l0; l1] [r0; r1] = Val false.
Proof.
  intros H.
  cbv [cmpLaneConditions bind vec_at nth_error Z.ltb Z.compare Z.to_nat
       Pos.to_nat Pos.iter_op Nat.add].
  assert (E : l0 - r0 + r1 - l1 = nan).
  { destruct H as [-> | [-> | [-> | ->]]];
      rewrite ?Sign.sub_nan_l, ?Sign.sub_nan_r, ?Sign.add_nan_l, ?Sign.add_nan_r,
              ?Sign.sub_nan_l; reflexivity. }
  rewrite E. reflexivity.
Qed.

End LaneProperties.

Lemma cmpLaneConditions_nan_prefers_right_witness :
  cmpLaneConditions [30; 0]%float [nan; 5]%float = Val false.
Proof.
  apply (cmpLaneConditions_nan_prefers_right 30 0 nan 5).
  right. right. left. reflexivity.
Defined.

(** * Further properties: the lane-change verdict *)

Section VerdictProperties.

Context {libm : Libm}.

Local Open Scope float_scope.

Lemma nan_ego_not_dangerous (c : Car) (car_s car_speed : float) (maps_x maps_y : vec) :
  car_s = nan \/ car_speed = nan ->
  ~ dangerous c car_s car_speed maps_x maps_y.
Proof.
  intros H (s & d & _ & D).
  assert (M : within_margin s car_s car_speed = false).
  { unfold within_margin. destruct H as [-> | ->].
    - rewrite Sign.sub_nan_r. change (abs nan) with nan. apply Sign.leb_nan_l.
    - unfold safety_margin. rewrite Sign.sub_nan_r. change (abs nan) with nan.
      rewrite Sign.add_nan_r. apply Sign.leb_nan_r. }
  assert (T : ttc_within_horizon s (obstacle_speed c) car_s car_speed = false).
  { unfold ttc_within_horizon, ttc. destruct H as [-> | ->].
    - rewrite Sign.sub_nan_r. change (0 <=? nan) with false. cbv iota.
      rewrite Sign.add_nan_l, Sign.div_nan_l. reflexivity.
    - rewrite Sign.sub_nan_l.
      destruct (0 <=? s - car_s); rewrite Double.div_nan_r; reflexivity. }
  rewrite M, T in D. destruct D; discriminate.
Qed.

(** X17.  With a NaN ego position or a NaN ego speed every comparison of the
    check fails, and [safeToChangeLane] answers true whatever the obstacles
    are. *)
Theorem safeToChangeLane_nan_ego_is_safe
    (cars : list Car) (car_s car_speed : float)
    (pts : list (float * float)) (delta_t : float) :
  pts <> [] ->
  car_s = nan \/ car_speed = nan ->
  safeToChangeLane cars car_s car_speed (xs pts) (ys pts) delta_t = Val true.
Proof.
  intros NE H. unfold safeToChangeLane.
  destruct (safeToChangeLane_loop_spec car_s car_speed pts cars NE true)
    as (b & -> & Hiff).
  destruct b; [reflexivity | exfalso].
  destruct (proj1 Hiff eq_refl) as [E | (c & _ & D)]; [discriminate | ].
  exact (nan_ego_not_dangerous c car_s car_speed _ _ H D).
Qed.

(** X18.  The verdict for two lists of obstacles taken together is the
    conjunction of their verdicts. *)
Theorem safeToChangeLane_app
    (cars1 cars2 : list Car) (car_s car_speed : float)
    (pts : list (float * float)) (delta_t : float) :
  pts <> [] ->
  exists b1 b2 : bool,
    safeToChangeLane cars1 car_s car_speed (xs pts) (ys pts) delta_t = Val b1 /\
    safeToChangeLane cars2 car_s car_speed (xs pts) (ys pts) delta_t = Val b2 /\
    safeToChangeLane (cars1 ++ cars2) car_s car_speed (xs pts) (ys pts) delta_t
    = Val (b1 && b2).
Proof.
  intros NE. unfold safeToChangeLane.
  destruct (safeToChangeLane_loop_spec car_s car_speed pts cars1 NE true)
    as (b1 & -> & H1).
  destruct (safeToChangeLane_loop_spec car_s car_speed pts cars2 NE true)
    as (b2 & -> & H2).
  destruct (safeToChangeLane_loop_spec car_s car_speed pts (cars1 ++ cars2) NE true)
    as (b & -> & H).
  exists b1, b2. repeat split. f_equal.
  destruct b.
  - destruct b1.
    + destruct b2; [reflexivity | exfalso].
      destruct (proj1 H2 eq_refl) as [E | (c & Hin & D)]; [discriminate | ].
      assert (F : true = false); [ | discriminate].
      apply H. right. exists c. split; [apply in_or_app; right; exact Hin | exact D].
    + exfalso.
      destruct (proj1 H1 eq_refl) as [E | (c & Hin & D)]; [discriminate | ].
      assert (F : true = false); [ | discriminate].
      apply H. right. exists c. split; [apply in_or_app; left; exact Hin | exact D].
  - destruct (proj1 H eq_refl) as [E | (c & Hin & D)]; [discriminate | ].
    apply in_app_or in Hin. destruct Hin as [Hin | Hin].
    + replace b1 with false; [reflexivity | ].
      symmetry. apply H1. right. exists c. split; assumption.
    + replace b2 with false; [destruct b1; reflexivity | ].
      symmetry. apply H2. right. exists c. split; assumption.
Qed.

(** X19.  The verdict does not depend on the order of the obstacles. *)
Theorem safeToChangeLane_permutation
    (cars cars' : list Car) (car_s car_speed : float)
    (pts : list (float * float)) (delta_t : float) :
  pts <> [] ->
  Permutation cars cars' ->
  safeToChangeLane cars car_s car_speed (xs pts) (ys pts) delta_t =
  safeToChangeLane cars' car_s car_speed (xs pts) (ys pts) delta_t.
Proof.
  intros NE P. unfold safeToChangeLane.
  destruct (safeToChangeLane_loop_spec car_s car_speed pts cars NE true)
    as (b & -> & H).
  destruct (safeToChangeLane_loop_spec car_s car_speed pts cars' NE true)
    as (b' & -> & H').
  f_equal.
  assert (E : b = false <-> b' = false).
  { rewrite H, H'. split; intros [F | (c & Hin & D)]; try discriminate; right;
      exists c; (split; [ | exact D]).
    - apply (Permutation_in c P Hin).
    - apply (Permutation_in c (Permutation_sym P) Hin). }
  destruct b, b'; try reflexivity; exfalso.
  - discriminate (proj2 E eq_refl).
  - discriminate (proj1 E eq_refl).
Qed.

End VerdictProperties.

Lemma safeToChangeLane_nan_ego_is_safe_witness :
  safeToChangeLane (libm := approx_libm) [mkCar 1 8 (-2) 20 0]%float 5 nan
    (xs Road.east) (ys Road.east) 3 = Val true.
Proof.
  apply (safeToChangeLane_nan_ego_is_safe (libm := approx_libm));
    [discriminate | right; reflexivity].
Defined.

Lemma safeToChangeLane_app_witness :
  exists b1 b2 : bool,
    safeToChangeLane (libm := approx_libm) [mkCar 1 95 2 20 0]%float 5 100
      (xs Road.long) (ys Road.long) 3 = Val b1 /\
    safeToChangeLane (libm := approx_libm) [mkCar 2 205 2 2 0]%float 5 100
      (xs Road.long) (ys Road.long) 3 = Val b2 /\
    safeToChangeLane (libm := approx_libm)
      ([mkCar 1 95 2 20 0] ++ [mkCar 2 205 2 2 0])%float 5 100
      (xs Road.long) (ys Road.long) 3 = Val (b1 && b2).
Proof.
  apply (safeToChangeLane_app (libm := approx_libm)). discriminate.
Defined.

Lemma safeToChangeLane_permutation_witness :
  safeToChangeLane (libm := approx_libm)
    [mkCar 1 95 2 20 0; mkCar 2 205 2 2 0]%float 5 100
    (xs Road.long) (ys Road.long) 3 =
  safeToChangeLane (libm := approx_libm)
    [mkCar 2 205 2 2 0; mkCar 1 95 2 20 0]%float 5 100
    (xs Road.long) (ys Road.long) 3.
Proof.
  apply (safeToChangeLane_permutation (libm := approx_libm));
    [discriminate | apply perm_swap].
Defined.

(** * Further properties: hasData *)

Section PayloadProperties.

Import Ascii String Payload.

Local Open Scope string_scope.

Lemma prefix_one (c d : ascii) (t : string) :
  prefix (String c "") (String d t) = if ascii_dec c d then true else false.
Proof.
  destruct (ascii_dec c d) as [-> | NE].
  - apply prefix_correct. cbn. destruct t; reflexivity.
  - destruct (prefix (String c "") (String d t)) eqn:E; [ | reflexivity].
    apply prefix_correct in E. cbn in E. congruence.
Qed.

Lemma find_char_cons (c d : ascii) (t : string) :
  find (String d t) (String c "") =
  if ascii_dec c d then Some 0%nat
  else match find t (String c "") with Some n => Some (S n) | None => None end.
Proof.
  unfold find. cbn [index]. rewrite prefix_one.
  destruct (ascii_dec c d); reflexivity.
Qed.

Lemma find_char_app (c : ascii) (a t : string) :
  find a (String c "") = None ->
  find (a ++ String c t) (String c "") = Some (length a).
Proof.
  induction a as [ | d a IH]; cbn [append length].
  - intros _. rewrite find_char_cons. destruct (ascii_dec c c); congruence.
  - rewrite !find_char_cons. destruct (ascii_dec c d); [discriminate | ].
    destruct (find a (String c "")); [discriminate | ].
    intros _. rewrite IH; reflexivity.
Qed.

Lemma find_char_app_none (c : ascii) (a b : string) :
  find a (String c "") = None -> find b (String c "") = None ->
  find (a ++ b) (String c "") = None.
Proof.
  induction a as [ | d a IH]; cbn [append]; [auto | ].
  rewrite !find_char_cons. destruct (ascii_dec c d); [discriminate | ].
  destruct (find a (String c "")); [discriminate | ].
  intros _ Hb. rewrite IH; auto.
Qed.

Lemma find_char_split (c : ascii) (s : string) :
  forall n, find s (String c "") = Some n ->
            exists a t, s = a ++ String c t /\ length a = n.
Proof.
  induction s as [ | d s IH]; intros n.
  - discriminate.
  - rewrite find_char_cons. destruct (ascii_dec c d) as [-> | NE].
    + intros H. injection H as <-. exists "", s. split; reflexivity.
    + destruct (find s (String c "")) as [m | ]; [ | discriminate].
      intros H. injection H as <-.
      destruct (IH m eq_refl) as (a & t & -> & <-).
      exists (String d a), t. split; reflexivity.
Qed.

Lemma string_app_assoc (a b c : string) : (a ++ b) ++ c = a ++ (b ++ c).
Proof. induction a as [ | d a IH]; cbn [append]; [ | rewrite IH]; reflexivity. Qed.

Lemma string_length_app (a b : string) : length (a ++ b) = (length a + length b)%nat.
Proof. induction a as [ | d a IH]; cbn [append length]; [ | rewrite IH]; reflexivity. Qed.

Lemma find_null_app (a b : string) :
  exists n, find (a ++ "null" ++ b) "null" = Some n.
Proof.
  induction a as [ | d a [n IH]]; cbn [append].
  - exists 0%nat. unfold find. cbn [index].
    replace (prefix "null" (String "n" (String "u" (String "l" (String "l" b)))))
      with true; [reflexivity | ].
    symmetry. apply prefix_correct. cbn. destruct b; reflexivity.
  - unfold find in *. cbn [index].
    destruct (prefix "null" _); [eauto | ].
    cbn [append] in IH. rewrite IH. eauto.
Qed.

Lemma substring_clip (s : string) :
  forall n m, substring n (Nat.min m (length s - n)) s = substring n m s.
Proof.
  induction s as [ | c s IH]; intros n m.
  - destruct n, m; reflexivity.
  - destruct n as [ | n].
    + destruct m as [ | m]; [reflexivity | ].
      cbn [length Nat.sub Nat.min substring]. f_equal.
      rewrite <- (IH 0%nat m), Nat.sub_0_r. reflexivity.
    + cbn [length Nat.sub substring]. apply IH.
Qed.

Lemma substr_substring (s : string) (pos : nat) (count : Z) :
  (0 <= count)%Z -> substr s pos count = substring pos (Z.to_nat count) s.
Proof.
  intros H. unfold substr.
  rewrite Z2Nat.inj_min, Nat2Z.id. apply substring_clip.
Qed.

Lemma substring_app_skip (a t : string) (k : nat) :
  substring (length a) k (a ++ t) = substring 0 k t.
Proof. induction a as [ | c a IH]; [reflexivity | exact IH]. Qed.

Lemma substring_app_take (a t : string) (k : nat) :
  substring 0 (length a + k) (a ++ t) = a ++ substring 0 k t.
Proof.
  induction a as [ | c a IH]; [reflexivity | ].
  cbn [length Nat.add append substring]. rewrite IH. reflexivity.
Qed.

(** X20.  A message with the text [null] anywhere in it carries no data:
    [hasData] returns the empty string, also when brackets are present. *)
Theorem hasData_null (a b : string) : hasData (a ++ "null" ++ b) = "".
Proof.
  unfold hasData. destruct (find_null_app a b) as [n ->]. reflexivity.
Qed.

(** X21.  On a message without [null] whose first [[] comes before its first
    [}], [hasData] returns the text from that bracket to that brace and one
    more character (the closing bracket of the event), if there is one. *)
Theorem hasData_payload (pre body tail : string) :
  find pre "[" = None -> find pre "}" = None -> find body "}" = None ->
  find (pre ++ "[" ++ body ++ "}" ++ tail) "null" = None ->
  (Z.of_nat (length body) + 3 < 2 ^ 64)%Z ->
  hasData (pre ++ "[" ++ body ++ "}" ++ tail)
  = "[" ++ body ++ "}" ++ substring 0 1 tail.
Proof.
  intros P1 P2 B N L. unfold hasData. rewrite N.
  cbn [append].
  rewrite (find_char_app "["%char pre _ P1).
  replace (pre ++ String "[" (body ++ String "}" tail))
    with ((pre ++ String "[" body) ++ String "}" tail) at 1
    by (rewrite string_app_assoc; reflexivity).
  rewrite (find_char_app "}"%char (pre ++ String "[" body) tail).
  - rewrite string_length_app. cbn [length].
    replace ((Z.of_nat (length pre + S (length body)) - Z.of_nat (length pre) + 2)
             mod 2 ^ 64)%Z with (Z.of_nat (S (length body + 2)))
      by (rewrite Z.mod_small; lia).
    rewrite substr_substring by lia. rewrite Nat2Z.id.
    rewrite substring_app_skip. cbn [substring]. f_equal.
    rewrite (substring_app_take body (String "}" tail) 2). reflexivity.
  - apply find_char_app_none; [exact P2 | ].
    rewrite find_char_cons.
    destruct (ascii_dec "}" "["); [discriminate | ]. rewrite B. reflexivity.
Qed.

(** X22.  Whatever the message, the result of [hasData] is empty or
    begins with the opening bracket [[]. *)
Theorem hasData_empty_or_bracket (s : string) :
  hasData s = "" \/ exists t, hasData s = String "[" t.
Proof.
  unfold hasData.
  destruct (find s "null"); [left; reflexivity | ].
  destruct (find s "[") as [b1 | ] eqn:E1; [ | left; reflexivity].
  destruct (find s "}") as [b2 | ]; [ | left; reflexivity].
  destruct (find_char_split _ _ _ E1) as (a & t & -> & <-).
  unfold substr. rewrite substring_app_skip.
  destruct (Z.to_nat _) as [ | k]; [left; reflexivity | right].
  eexists. reflexivity.
Qed.

End PayloadProperties.

Section PayloadWitness.

Import String.

Local Open Scope string_scope.

Lemma hasData_payload_witness : Payload.hasData "42[t,{x:1}]" = "[t,{x:1}]".
Proof.
  apply (hasData_payload "42" "t,{x:1" "]"); reflexivity.
Defined.

End PayloadWitness.

(** * The round trip on a westbound line *)

Section RoundTripWestbound.

Import Road.

Local Open Scope float_scope.


(** On the same line travelled eastbound both round trips hold at the
    mirrored data. *)
Example round_trips_eastbound_hold :
  xy_round_trip round_trip_tolerance 14 1 0 arc (xs east) (ys east) /\
  sd_round_trip round_trip_tolerance 14 (-1) 0 arc (xs east) (ys east).
Proof.
  split.
  - exists 14, (-1), 14, 1. repeat split; reflexivity.
  - exists 14, 1, 14, (-1). repeat split; reflexivity.
Qed.

End RoundTripWestbound.
